(** * OSC messages, their wire codec and the pattern-matching dispatcher

    A shallow embedding of [message.go] (the [Message] type, its typed
    readers and writers, [bytes], [parseMessage], [parseArguments] and
    [Match]) and of the [PatternMatching] dispatcher ([Dispatch],
    [immediately], [invoke], [Invoke]), followed by the properties
    established about them.

    Conventions of the embedding:
    - a Go [[]byte] is a [list byte]; a Go [string] is a [string]; the
      conversions [[]byte(s)] and [string(b)] are [list_byte_of_string]
      and [string_of_list_byte];
    - a [*bytes.Buffer] is the list of its unread bytes: writes append at
      the end, reads consume from the front, [Len] and [Bytes] look at the
      unread part only;
    - a method with a pointer receiver is a function from the message to an
      [outcome]: either it returns (a value and the message as the method
      left it) or the Go runtime panics;
    - Go's [(value, error)] results are pairs whose second component is an
      [option error] ([None] is [nil]);
    - lengths and indices are [nat] ([ttReadIndex] starts at 1 and is only
      ever incremented); an [int32] is a [Z] in its two's-complement range,
      a [float32] is carried as its IEEE-754 bit pattern. *)

From Stdlib Require Import ZArith Lia ZifyNat Strings.Byte Strings.String.
From stdpp Require Import gmap strings list fin_maps.

Local Open Scope Z_scope.
Local Open Scope nat_scope.

(** ** Bytes *)

#[global] Instance byte_eq_dec : EqDecision byte.
Proof.
  intros x y. destruct (Byte.eqb x y) eqn:E.
  - left. now apply Byte.byte_dec_bl.
  - right. now apply Byte.eqb_false.
Defined.

(** Go's [byte(v)] conversion of an integer: the low eight bits. *)
Definition byte_of_Z (z : Z) : byte :=
  default "000"%byte (Byte.of_N (Z.to_N (z mod 256))).

Definition Z_of_byte (b : byte) : Z := Z.of_N (Byte.to_N b).

(** The constants of the package that [message.go] refers to. *)
Definition typetagPrefix : byte := ","%byte.
Definition typetagInt    : byte := "i"%byte.
Definition typetagFloat  : byte := "f"%byte.
Definition typetagString : byte := "s"%byte.
Definition typetagBlob   : byte := "b"%byte.
Definition typetagTrue   : byte := "T"%byte.
Definition typetagFalse  : byte := "F"%byte.
Definition nul           : byte := "000"%byte.

(** ** Errors and panics *)

(** The error values that the modelled code can produce.  The first four
    are the package's sentinel values; [ErrUnexpectedType tag] is
    [fmt.Errorf("Unexpected type %c", tag)]; [EOF] and [ErrUnexpectedEOF]
    come from package [io]; [ErrRegexp] is a compilation error reported by
    the regular-expression compiler; the remaining ones belong to the
    dispatcher. *)
#[warnings="-register-all"]
Inductive error : Type :=
  | ErrIndexOutOfBounds
  | ErrInvalidTypeTag
  | ErrNilWriter
  | ErrParse
  | ErrUnexpectedType (tag : byte)
  | EOF
  | ErrUnexpectedEOF
  | ErrRegexp (pattern : string)
  | ErrInvokeBundle (errs : list error)
  | ErrUnsupportedType (type_name : string)
  | ErrHandler (code : nat).

Inductive panic : Type :=
  | IndexOutOfRange (index len : nat)
  | SliceBoundsOutOfRange (low len : nat)
  | MakeSliceLenOutOfRange (len : Z).

Inductive outcome (A : Type) : Type :=
  | Returns (v : A)
  | Panics (p : panic).
Arguments Returns {A} v.
Arguments Panics {A} p.

(** ** [encoding/binary] with [byteOrder = binary.BigEndian] *)

Definition putUint32 (v : Z) : list byte :=
  [ byte_of_Z (Z.shiftr v 24); byte_of_Z (Z.shiftr v 16);
    byte_of_Z (Z.shiftr v 8);  byte_of_Z v ].

Definition getUint32 (b0 b1 b2 b3 : byte) : Z :=
  Z.lor (Z.lor (Z.shiftl (Z_of_byte b0) 24) (Z.shiftl (Z_of_byte b1) 16))
        (Z.lor (Z.shiftl (Z_of_byte b2) 8) (Z_of_byte b3)).

(** [uint32(v)] of an [int32] and [int32(u)] of a [uint32]. *)
Definition uint32_of_int32 (v : Z) : Z := (v mod 2 ^ 32)%Z.
Definition int32_of_uint32 (u : Z) : Z :=
  (if u <? 2 ^ 31 then u else u - 2 ^ 32)%Z.

(** ** [bytes.Buffer] *)

Definition Buffer : Type := list byte.

Definition Buffer_Len (b : Buffer) : nat := length b.
Definition Buffer_Bytes (b : Buffer) : list byte := b.
Definition Buffer_Write (b : Buffer) (p : list byte) : Buffer := b ++ p.
Definition Buffer_WriteByte (b : Buffer) (c : byte) : Buffer := b ++ [c].

(** [ReadByte]: [io.EOF] on an empty buffer. *)
Definition Buffer_ReadByte (b : Buffer) : (byte * option error) * Buffer :=
  match b with
  | [] => ((nul, Some EOF), [])
  | c :: rest => ((c, None), rest)
  end.

(** [Read(p)] with [len(p) = n]: the result is the contents of [p] after the
    call (a freshly made, zeroed slice in every caller), the number of bytes
    copied and the error. *)
Definition Buffer_Read (b : Buffer) (n : nat)
  : (list byte * nat * option error) * Buffer :=
  match b with
  | [] => ((replicate n nul, 0, if decide (n = 0) then None else Some EOF), [])
  | _ :: _ =>
      let k := min n (length b) in
      ((take k b ++ replicate (n - k) nul, k, None), drop k b)
  end.

(** [io.ReadFull] on a buffer: all [n] bytes or an error; a short read
    drains the buffer and reports [io.ErrUnexpectedEOF], no byte at all is
    [io.EOF]. *)
Definition io_ReadFull (b : Buffer) (n : nat)
  : (list byte * option error) * Buffer :=
  if decide (n = 0) then (([], None), b)
  else match b with
       | [] => ((replicate n nul, Some EOF), [])
       | _ :: _ =>
           if decide (n <= length b)
           then ((take n b, None), drop n b)
           else ((b ++ replicate (n - length b) nul, Some ErrUnexpectedEOF), [])
       end.

(** [binary.Read(buf, byteOrder, &val)] for a 32-bit [val]: the value stays
    at its zero value when the read fails. *)
Definition binary_Read_uint32 (b : Buffer) : (Z * option error) * Buffer :=
  match io_ReadFull b 4 with
  | (([b0; b1; b2; b3], None), b') => ((getUint32 b0 b1 b2 b3, None), b')
  | ((_, Some e), b') => ((0%Z, Some e), b')
  | ((_, None), b') => ((0%Z, None), b')
  end.

Definition binary_Read_int32 (b : Buffer) : (Z * option error) * Buffer :=
  let '((u, err), b') := binary_Read_uint32 b in
  ((int32_of_uint32 u, err), b').

Definition binary_Write_int32 (b : Buffer) (val : Z) : Buffer :=
  Buffer_Write b (putUint32 (uint32_of_int32 val)).

(** A [float32] is carried as [math.Float32bits] of it. *)
Definition binary_Write_float32 (b : Buffer) (bits : Z) : Buffer :=
  Buffer_Write b (putUint32 bits).

(** ** The message *)

Record Message : Type := mkMessage {
  address       : list byte;
  typetag       : list byte;
  argbuf        : Buffer;
  ttReadIndex   : nat;
  senderAddress : option string
}.

Definition method (A : Type) : Type := Message -> outcome (A * Message).

Definition set_typetag (tags : list byte) (msg : Message) : Message :=
  mkMessage (address msg) tags (argbuf msg) (ttReadIndex msg) (senderAddress msg).
Definition set_argbuf (b : Buffer) (msg : Message) : Message :=
  mkMessage (address msg) (typetag msg) b (ttReadIndex msg) (senderAddress msg).
Definition incr_ttReadIndex (msg : Message) : Message :=
  mkMessage (address msg) (typetag msg) (argbuf msg) (S (ttReadIndex msg))
            (senderAddress msg).

Definition NewMessage (addr : string) : Message :=
  {| address := list_byte_of_string addr;
     argbuf := [];
     typetag := [typetagPrefix];
     ttReadIndex := 1;
     senderAddress := None |}.

(** [msg.typetag[msg.ttReadIndex]], a checked index expression: the run-time
    panics when the index is not below the length. *)
Definition index_typetag (msg : Message) : outcome byte :=
  match typetag msg !! ttReadIndex msg with
  | Some tag => Returns tag
  | None => Panics (IndexOutOfRange (ttReadIndex msg) (length (typetag msg)))
  end.

(** *** Typed readers *)

Definition ReadInt32 : method (Z * option error) := fun msg =>
  match index_typetag msg with
  | Panics p => Panics p
  | Returns tag =>
      if decide (tag <> typetagInt)
      then Returns ((0%Z, Some (ErrUnexpectedType tag)), msg)
      else
        let '((val, err), buf) := binary_Read_int32 (argbuf msg) in
        match err with
        | Some e => Returns ((0%Z, Some e), set_argbuf buf msg)
        | None => Returns ((val, None), incr_ttReadIndex (set_argbuf buf msg))
        end
  end.

Definition ReadFloat32 : method (Z * option error) := fun msg =>
  match index_typetag msg with
  | Panics p => Panics p
  | Returns tag =>
      if decide (tag <> typetagFloat)
      then Returns ((0%Z, Some (ErrUnexpectedType tag)), msg)
      else
        let '((val, err), buf) := binary_Read_uint32 (argbuf msg) in
        match err with
        | Some e => Returns ((0%Z, Some e), set_argbuf buf msg)
        | None => Returns ((val, None), incr_ttReadIndex (set_argbuf buf msg))
        end
  end.

Definition ReadBool : method (bool * option error) := fun msg =>
  match index_typetag msg with
  | Panics p => Panics p
  | Returns tag =>
      if decide (tag <> typetagTrue /\ tag <> typetagFalse)
      then Returns ((false, Some (ErrUnexpectedType tag)), msg)
      else Returns ((bool_decide (tag = typetagTrue), None), incr_ttReadIndex msg)
  end.

(** The padding loop of [ReadString],
    [for j := i; j%4 != 0; j++ { msg.argbuf.ReadByte() }]: the bytes are
    dropped, an [io.EOF] on the way is ignored. *)
Fixpoint readPadLoop (fuel j : nat) (buf : Buffer) : Buffer :=
  match fuel with
  | O => buf
  | S fuel' =>
      if decide (j mod 4 <> 0)
      then readPadLoop fuel' (S j) (snd (Buffer_ReadByte buf))
      else buf
  end.

(** The scanning loop of [ReadString],
    [for i := 0; i < msg.argbuf.Len(); i++ { c := ReadByte(); ... }].
    The bound [Len()] is the number of bytes still unread and is evaluated
    again at every iteration.  Each iteration consumes one byte, so the
    recursion is on the buffer. *)
Fixpoint readStringLoop (i : nat) (buf : Buffer) (val : list byte)
  : list byte * Buffer :=
  match buf with
  | [] => (val, buf)
  | c :: rest =>
      if decide (i < Buffer_Len buf)
      then if decide (c = nul)
           then (val, readPadLoop 4 i rest)
           else readStringLoop (S i) rest (val ++ [c])
      else (val, buf)
  end.

Definition ReadString : method (string * option error) := fun msg =>
  match index_typetag msg with
  | Panics p => Panics p
  | Returns tag =>
      if decide (tag <> typetagString)
      then Returns ((EmptyString, Some (ErrUnexpectedType tag)), msg)
      else
        let '(val, buf) := readStringLoop 0 (argbuf msg) [] in
        Returns ((string_of_list_byte val, None),
                 incr_ttReadIndex (set_argbuf buf msg))
  end.

Definition ReadBlob : method (list byte * option error) := fun msg =>
  match index_typetag msg with
  | Panics p => Panics p
  | Returns tag =>
      if decide (tag <> typetagBlob)
      then Returns (([], Some (ErrUnexpectedType tag)), msg)
      else
        let '((bl, err), buf) := binary_Read_int32 (argbuf msg) in
        match err with
        | Some e => Returns (([], Some e), set_argbuf buf msg)
        | None =>
            if decide (bl < 0)%Z then Panics (MakeSliceLenOutOfRange bl)
            else
              let '((blob, _, err'), buf') := Buffer_Read buf (Z.to_nat bl) in
              match err' with
              | Some e => Returns (([], Some e), set_argbuf buf' msg)
              | None =>
                  Returns ((blob, None), incr_ttReadIndex (set_argbuf buf' msg))
              end
        end
  end.

(** *** Typed writers *)

(** The padding loop shared by [WriteString], [WriteBlob] and [bytes],
    [for j := n; j%4 != 0; j++ { w.WriteByte(0) }]. *)
Fixpoint writePadLoop (fuel j : nat) (w : Buffer) : Buffer :=
  match fuel with
  | O => w
  | S fuel' =>
      if decide (j mod 4 <> 0)
      then writePadLoop fuel' (S j) (Buffer_WriteByte w nul)
      else w
  end.

Definition append_typetag (tag : byte) (msg : Message) : Message :=
  set_typetag (typetag msg ++ [tag]) msg.

Definition WriteInt32 (val : Z) : method (option error) := fun msg =>
  let msg := append_typetag typetagInt msg in
  Returns (None, set_argbuf (binary_Write_int32 (argbuf msg) val) msg).

Definition WriteFloat32 (bits : Z) : method (option error) := fun msg =>
  let msg := append_typetag typetagFloat msg in
  Returns (None, set_argbuf (binary_Write_float32 (argbuf msg) bits) msg).

Definition WriteBool (val : bool) : method (option error) := fun msg =>
  if val then Returns (None, append_typetag typetagTrue msg)
  else Returns (None, append_typetag typetagFalse msg).

(** The first loop of [WriteString] writes the bytes one at a time and
    counts them in [i]. *)
Fixpoint writeBytesLoop (cs : list byte) (i : nat) (w : Buffer) : nat * Buffer :=
  match cs with
  | [] => (i, w)
  | c :: cs' => writeBytesLoop cs' (S i) (Buffer_WriteByte w c)
  end.

Definition WriteString (val : string) : method (option error) := fun msg =>
  let msg := append_typetag typetagString msg in
  let '(i, w) := writeBytesLoop (list_byte_of_string val) 0 (argbuf msg) in
  Returns (None, set_argbuf (writePadLoop 4 i w) msg).

Definition WriteBlob (blob : list byte) : method (option error) := fun msg =>
  let bl := length blob in
  if decide (bl = 0) then Returns (None, msg)
  else
    let msg := append_typetag typetagBlob msg in
    let w := binary_Write_int32 (argbuf msg) (Z.of_nat bl) in
    let w := Buffer_Write w blob in
    Returns (None, set_argbuf (writePadLoop 4 bl w) msg).

Definition TypeTags (msg : Message) : string := string_of_list_byte (typetag msg).
Definition Sender (msg : Message) : option string := senderAddress msg.

(** *** Encoding *)

Definition bytes (msg : Message) : list byte * option error :=
  let w : Buffer := [] in
  let bytesWritten := 0 in
  let w := Buffer_Write w (address msg) in
  let bytesWritten := bytesWritten + length (address msg) in
  let w := Buffer_Write w (typetag msg) in
  let bytesWritten := bytesWritten + length (typetag msg) in
  let w := writePadLoop 4 bytesWritten w in
  let w := Buffer_Write w (Buffer_Bytes (argbuf msg)) in
  (Buffer_Bytes w, None).

(** *** Decoding *)

(** The scanning loops of [parseMessage] and [parseArguments],
    [for i < n { if data[i] == c { ...; break }; i++ }]: the index at which
    the loop stops and whether it stopped at a [c]. *)
Fixpoint scanLoop (c : byte) (rest : list byte) (i : nat) : nat * bool :=
  match rest with
  | [] => (i, false)
  | x :: rest' => if decide (x = c) then (i, true) else scanLoop c rest' (S i)
  end.

(** [for i%4 != 0 { i++ }] *)
Fixpoint alignLoop (fuel i : nat) : nat :=
  match fuel with
  | O => i
  | S fuel' => if decide (i mod 4 <> 0) then alignLoop fuel' (S i) else i
  end.

(** The slice expression [data[i:]]. *)
Definition slice_from (data : list byte) (i : nat) : outcome (list byte) :=
  if decide (i <= length data) then Returns (drop i data)
  else Panics (SliceBoundsOutOfRange i (length data)).

Definition parseArguments (data : list byte) : method (option error) := fun msg =>
  match data with
  | [] => Returns (Some ErrInvalidTypeTag, msg)
  | d0 :: _ =>
      if decide (d0 <> typetagPrefix) then Returns (Some ErrInvalidTypeTag, msg)
      else
        let '(i, found) := scanLoop nul data 0 in
        let msg := if found then set_typetag (take i data) msg else msg in
        let i := alignLoop 4 i in
        match slice_from data i with
        | Panics p => Panics p
        | Returns rest => Returns (None, set_argbuf rest msg)
        end
  end.

Definition parseMessage (data : list byte) (sender : option string)
  : outcome (option Message * option error) :=
  let '(i, found) := scanLoop typetagPrefix data 0 in
  let addr := if found then take i data else [] in
  let msg := {| address := addr; typetag := []; argbuf := [];
                ttReadIndex := 1; senderAddress := sender |} in
  match parseArguments (drop i data) msg with
  | Panics p => Panics p
  | Returns (Some err, _) => Returns (None, Some err)
  | Returns (None, msg') => Returns (Some msg', None)
  end.

Definition clone (msg : Message) : Message * option error :=
  ({| address := address msg; typetag := typetag msg;
      argbuf := Buffer_Bytes (argbuf msg); ttReadIndex := 1;
      senderAddress := senderAddress msg |}, None).

(** The message as a writer leaves it. *)
Definition written (w : method (option error)) (msg : Message) : Message :=
  match w msg with
  | Returns (_, msg') => msg'
  | Panics _ => msg
  end.

(** ** Address matching *)

Section Matching.
(** The regular-expression engine behind [Match].  [getRegEx] is not part
    of the sources at hand: it is taken as a parameter, a compiler from a
    pattern string to a compiled expression that may reject the pattern,
    together with the expression's [MatchString]. *)
Variable Regexp : Type.
Variable getRegEx : string -> Regexp + string.
Variable MatchString : Regexp -> string -> bool.

Definition Match (msg : Message) (addr : string) : bool * option error :=
  match getRegEx (string_of_list_byte (address msg)) with
  | inr bad => (false, Some (ErrRegexp bad))
  | inl exp => if MatchString exp addr then (true, None) else (false, None)
  end.
End Matching.

(** Modelled from the spec: [getRegEx] and the expression it compiles to are
    missing from the sources.  This is the pattern language of the
    specification's pattern matcher: [?] is one character other than [/],
    [*] is any run of characters other than [/], [[set]] is a character
    class with ranges, negated by a leading [!] or [^], in which a literal
    []] comes first, [{a,b,c}] is an alternation of literal substrings that
    does not nest; unbalanced brackets or braces do not compile; the match
    is anchored at both ends. *)
Module OscPattern.

Inductive token : Type :=
  | TLit (c : byte)
  | TAnyOne
  | TStar
  | TClass (negated : bool) (ranges : list (byte * byte))
  | TAlt (alts : list (list byte)).

Definition slash : byte := "/"%byte.

(** The members of a character class, up to the closing bracket. *)
Fixpoint parseClass (s : list byte) (acc : list (byte * byte))
  : option (list (byte * byte) * list byte) :=
  match s with
  | [] => None
  | c :: rest =>
      if decide (c = "]"%byte) then Some (rev acc, rest)
      else match rest with
           | dash :: d :: rest' =>
               if decide (dash = "-"%byte /\ d <> "]"%byte)
               then parseClass rest' ((c, d) :: acc)
               else parseClass rest ((c, c) :: acc)
           | _ => parseClass rest ((c, c) :: acc)
           end
  end.

(** The alternatives of a brace group, up to the closing brace. *)
Fixpoint parseAlts (s : list byte) (cur : list byte) (acc : list (list byte))
  : option (list (list byte) * list byte) :=
  match s with
  | [] => None
  | c :: rest =>
      if decide (c = "}"%byte) then Some (rev (rev cur :: acc), rest)
      else if decide (c = ","%byte) then parseAlts rest [] (rev cur :: acc)
      else if decide (c = "{"%byte) then None
      else parseAlts rest (c :: cur) acc
  end.

Definition classStart (s : list byte) : bool * list (byte * byte) * list byte :=
  let '(neg, s) :=
    match s with
    | c :: rest =>
        if decide (c = "!"%byte \/ c = "^"%byte) then (true, rest) else (false, s)
    | [] => (false, s)
    end in
  match s with
  | c :: rest =>
      if decide (c = "]"%byte) then (neg, [(c, c)], rest) else (neg, [], s)
  | [] => (neg, [], s)
  end.

Fixpoint compile (fuel : nat) (s : list byte) : option (list token) :=
  match s with
  | [] => Some []
  | c :: rest =>
      match fuel with
      | O => None
      | S fuel' =>
          if decide (c = "?"%byte) then cons TAnyOne <$> compile fuel' rest
          else if decide (c = "*"%byte) then cons TStar <$> compile fuel' rest
          else if decide (c = "["%byte) then
            let '(neg, acc, rest1) := classStart rest in
            match parseClass rest1 acc with
            | Some (ranges, rest2) => cons (TClass neg ranges) <$> compile fuel' rest2
            | None => None
            end
          else if decide (c = "{"%byte) then
            match parseAlts rest [] [] with
            | Some (alts, rest2) => cons (TAlt alts) <$> compile fuel' rest2
            | None => None
            end
          else if decide (c = "]"%byte \/ c = "}"%byte) then None
          else cons (TLit c) <$> compile fuel' rest
      end
  end.

Definition inRange (x : byte) (r : byte * byte) : bool :=
  (Byte.to_N (fst r) <=? Byte.to_N x)%N && (Byte.to_N x <=? Byte.to_N (snd r))%N.

Fixpoint stripPrefix (p s : list byte) : option (list byte) :=
  match p, s with
  | [], _ => Some s
  | c :: p', x :: s' => if decide (c = x) then stripPrefix p' s' else None
  | _ :: _, [] => None
  end.

Fixpoint matchTokens (toks : list token) (s : list byte) : bool :=
  match toks with
  | [] => bool_decide (s = [])
  | TLit c :: toks' =>
      match s with
      | x :: s' => bool_decide (x = c) && matchTokens toks' s'
      | [] => false
      end
  | TAnyOne :: toks' =>
      match s with
      | x :: s' => bool_decide (x <> slash) && matchTokens toks' s'
      | [] => false
      end
  | TStar :: toks' =>
      (fix star (s : list byte) : bool :=
         matchTokens toks' s ||
         match s with
         | x :: s' => bool_decide (x <> slash) && star s'
         | [] => false
         end) s
  | TClass neg ranges :: toks' =>
      match s with
      | x :: s' =>
          bool_decide (x <> slash) && xorb neg (existsb (inRange x) ranges)
          && matchTokens toks' s'
      | [] => false
      end
  | TAlt alts :: toks' =>
      existsb (fun alt => match stripPrefix alt s with
                          | Some s' => matchTokens toks' s'
                          | None => false
                          end) alts
  end.

Definition Regexp : Type := list token.

Definition getRegEx (pattern : string) : Regexp + string :=
  let s := list_byte_of_string pattern in
  match compile (length s) s with
  | Some toks => inl toks
  | None => inr pattern
  end.

Definition MatchString (exp : Regexp) (s : string) : bool :=
  matchTokens exp (list_byte_of_string s).

(** [pattern] matches [addr]: the matcher of the specification. *)
Definition matches (pattern addr : string) : bool :=
  match getRegEx pattern with
  | inl exp => MatchString exp addr
  | inr _ => false
  end.

(** A string without any of the metacharacters. *)
Definition literal (s : list byte) : Prop :=
  Forall (fun c => c ∉ [ "?"%byte; "*"%byte; "["%byte; "]"%byte;
                          "{"%byte; "}"%byte ]) s.

End OscPattern.

(** [Message.Match] over the pattern language of the specification. *)
Definition oscMatch : Message -> string -> bool * option error :=
  Match OscPattern.Regexp OscPattern.getRegEx OscPattern.MatchString.

(** ** The pattern-matching dispatcher *)

Section Dispatcher.
(** Handlers are opaque user code: a handler may change the world around
    it and may fail. *)
Variable World : Type.

Record MessageHandler : Type := mkHandler {
  Handle : Message -> World -> World * option error
}.

Definition action : Type := World -> World * option error.

(** [PatternMatching] is [map[string]MessageHandler]. *)
Definition PatternMatching : Type := gmap string MessageHandler.

(** The [Match] called by the dispatcher takes the matching mode as a
    second argument; a bundle's time-tag converts to a point in time; a
    blocked goroutine lets time pass.  All three come from outside the
    sources at hand and are parameters here. *)
Variable Match2 : Message -> string -> bool -> bool * option error.
Variable Timetag : Type.
Variable Timetag_Time : Timetag -> Z.
Variable wait : Z -> World -> World.

(** A [for ... range] over a Go map visits every entry once, in an order
    the language leaves open: [range h] is the order the run-time picks, a
    permutation of the entries of [h]. *)
Variable range : PatternMatching -> list (string * MessageHandler).

Inductive Packet : Type :=
  | PMessage (x : Message)
  | PBundle (x : Bundle)
  | POther (type_name : string)
with Bundle : Type :=
  | mkBundle (Timetag_of : Timetag) (Packets : list Packet).

Definition Bundle_Timetag (b : Bundle) : Timetag :=
  match b with mkBundle t _ => t end.
Definition Bundle_Packets (b : Bundle) : list Packet :=
  match b with mkBundle _ ps => ps end.

(** The loop of [Invoke] over the entries in the order they are visited. *)
Fixpoint InvokeLoop (entries : list (string * MessageHandler))
    (msg : Message) (exactMatch : bool) : action := fun w =>
  match entries with
  | [] => (w, None)
  | (addr, handler) :: rest =>
      let '(matched, err) := Match2 msg addr exactMatch in
      match err with
      | Some e => (w, Some e)
      | None =>
          if matched then Handle handler msg w
          else InvokeLoop rest msg exactMatch w
      end
  end.

Definition Invoke (h : PatternMatching) (msg : Message) (exactMatch : bool)
  : action :=
  InvokeLoop (range h) msg exactMatch.

(** [immediately] and [invoke] call each other.  In [immediately] the body
    of the loop over [b.Packets] ends in [return nil] (or returns the
    wrapped error before that): the first iteration leaves the function,
    and the packets after the first are not visited. *)
Fixpoint invoke (h : PatternMatching) (p : Packet) (exactMatch : bool)
  {struct p} : action := fun w =>
  match p with
  | PMessage x => Invoke h x exactMatch w
  | PBundle x => immediately h x exactMatch w
  | POther type_name => (w, Some (ErrUnsupportedType type_name))
  end
with immediately (h : PatternMatching) (b : Bundle) (exactMatch : bool)
  {struct b} : action := fun w =>
  match b with
  | mkBundle _ packets =>
      match packets with
      | [] => (w, None)
      | p :: _ =>
          let errs : list error := [] in
          let '(w, err) := invoke h p exactMatch w in
          let errs := match err with
                      | Some e => errs ++ [e]
                      | None => errs
                      end in
          if decide (0 < length errs) then (w, Some (ErrInvokeBundle errs))
          else (w, None)
      end
  end.

(** [Dispatch]; [now] is the reading of the clock by [time.Now()]. *)
Definition Dispatch (h : PatternMatching) (now : Z) (b : Bundle)
    (exactMatch : bool) : action := fun w =>
  let t := Timetag_Time (Bundle_Timetag b) in
  if decide (t < now)%Z then immediately h b exactMatch w
  else immediately h b exactMatch (wait (t - now) w).

(** What the specification asks of a bundle: every packet, in the order of
    declaration, nested bundles included.  This follows the words of the
    specification, not the code; it stops at the first failure. *)
Fixpoint dispatch_all (h : PatternMatching) (p : Packet) (exactMatch : bool)
  {struct p} : action := fun w =>
  match p with
  | PMessage x => Invoke h x exactMatch w
  | PBundle (mkBundle _ packets) =>
      (fix each (ps : list Packet) (w : World) : World * option error :=
         match ps with
         | [] => (w, None)
         | q :: ps' =>
             match dispatch_all h q exactMatch w with
             | (w', Some e) => (w', Some e)
             | (w', None) => each ps' w'
             end
         end) packets w
  | POther type_name => (w, Some (ErrUnsupportedType type_name))
  end.

End Dispatcher.

Arguments Handle {World} _ _ _.
Arguments mkHandler {World} _.
Arguments PMessage {Timetag} x.
Arguments PBundle {Timetag} x.
Arguments POther {Timetag} type_name.
Arguments mkBundle {Timetag} _ _.
Arguments Bundle_Timetag {Timetag} b.
Arguments Bundle_Packets {Timetag} b.
Arguments InvokeLoop {World} Match2 entries msg exactMatch.
Arguments Invoke {World} Match2 range h msg exactMatch.
Arguments invoke {World} Match2 {Timetag} range h p exactMatch.
Arguments immediately {World} Match2 {Timetag} range h b exactMatch.
Arguments Dispatch {World} Match2 {Timetag} Timetag_Time wait range h now b exactMatch.
Arguments dispatch_all {World} Match2 {Timetag} range h p exactMatch.

(** Modelled from the spec: the two-argument [Match] of the dispatcher is
    missing from the sources, and only its exact mode is taken from the
    specification: the incoming address is compared literally with the
    registered string.  Its pattern mode is not the specification's (which
    reads the registered string as the pattern): it is the one-argument
    [Message.Match] of the sources, which compiles the address of the
    message and tests the registered string against it. *)
Definition oscMatch2 (msg : Message) (addr : string) (exactMatch : bool)
  : bool * option error :=
  if exactMatch
  then (bool_decide (addr = string_of_list_byte (address msg)), None)
  else oscMatch msg addr.

(** *** A concrete world: the log of handler calls *)

Definition Log : Type := list (string * Message).

Definition logging (name : string) : MessageHandler Log :=
  mkHandler (fun msg w => (w ++ [(name, msg)], None)).

(** What a call returned, when it returned. *)
Definition returned_value {A E} (r : outcome ((A * E) * Message)) : option (A * E) :=
  match r with
  | Returns (v, _) => Some v
  | Panics _ => None
  end.
Definition returned_error {A} (r : outcome ((A * option error) * Message))
  : option error :=
  match r with
  | Returns ((_, err), _) => err
  | Panics _ => None
  end.
Definition written_error (r : outcome (option error * Message)) : option error :=
  match r with
  | Returns (err, _) => err
  | Panics _ => None
  end.
Definition parsed_error (r : outcome (option Message * option error))
  : option error :=
  match r with
  | Returns (_, err) => err
  | Panics _ => None
  end.

(** ** Named inputs and the specification's wording *)

(** The number of iterations of [for j := n; j%4 != 0; j++]. *)
Definition padCount (n : nat) : nat := (4 - n mod 4) mod 4.

(** The message of the specification's first scenario: [/address/test] with
    the single argument [int32(1122)]. *)
Definition msg_address_test : Message :=
  written (WriteInt32 1122) (NewMessage "/address/test").

(** The wire form in the words of the specification: a string is followed by
    one to four null bytes up to the next multiple of four, and the address
    and the type-tag are each written that way. *)
Definition aligned_string (s : list byte) : list byte :=
  s ++ replicate (4 - length s mod 4) nul.
Definition wire_form_of_spec (msg : Message) : list byte :=
  aligned_string (address msg) ++ aligned_string (typetag msg) ++ argbuf msg.

(** Dispatcher tables for the scenarios below. *)
Definition table_lfo : PatternMatching Log :=
  {[ "/lfo/?"%string := logging "lfo" ]}.

Definition table_a_b : PatternMatching Log :=
  <[ "/b"%string := logging "B" ]> (<[ "/a"%string := logging "A" ]> ∅).

Definition table_two_patterns : PatternMatching Log :=
  <[ "/x/*"%string := logging "star" ]> (<[ "/x/?"%string := logging "one" ]> ∅).

Definition table_three : PatternMatching Log :=
  <[ "/x/*"%string := logging "star" ]>
    (<[ "/x/?"%string := logging "one" ]> (<[ "/a"%string := logging "A" ]> ∅)).

(** A bundle of two messages, due at time 0. *)
Definition bundle_a_b : Bundle Z :=
  mkBundle 0%Z [PMessage (NewMessage "/a"); PMessage (NewMessage "/b")].

(** ** Messages built by a client *)

(** The arguments a client appends with the typed writers. *)
Inductive Arg : Type :=
  | AInt32 (val : Z)
  | AFloat32 (bits : Z)
  | ABool (val : bool)
  | AString (val : string)
  | ABlob (blob : list byte).

Definition writeArg (a : Arg) : method (option error) :=
  match a with
  | AInt32 val => WriteInt32 val
  | AFloat32 bits => WriteFloat32 bits
  | ABool val => WriteBool val
  | AString val => WriteString val
  | ABlob blob => WriteBlob blob
  end.

(** One writer call after the other on the same message. *)
Fixpoint writeArgs (args : list Arg) (msg : Message) : Message :=
  match args with
  | [] => msg
  | a :: rest => writeArgs rest (written (writeArg a) msg)
  end.

(** The tag and the bytes that a writer call leaves behind. *)
Definition argTag (a : Arg) : list byte :=
  match a with
  | AInt32 _ => [typetagInt]
  | AFloat32 _ => [typetagFloat]
  | ABool val => [if val then typetagTrue else typetagFalse]
  | AString _ => [typetagString]
  | ABlob blob => if decide (length blob = 0) then [] else [typetagBlob]
  end.

Definition argBytes (a : Arg) : list byte :=
  match a with
  | AInt32 val => putUint32 (uint32_of_int32 val)
  | AFloat32 bits => putUint32 bits
  | ABool _ => []
  | AString val =>
      list_byte_of_string val
        ++ replicate (padCount (length (list_byte_of_string val))) nul
  | ABlob blob =>
      if decide (length blob = 0) then []
      else putUint32 (uint32_of_int32 (Z.of_nat (length blob)))
             ++ blob ++ replicate (padCount (length blob)) nul
  end.

(** ** Printing *)

(** What [Print] hands to [fmt.Fprintf]: the header [%s%s] of address and
    type-tag string, and one item per argument ([ %d], [ %f], [ %s], [ %t]).
    The text that [fmt] makes of an item is not modelled. *)
Inductive PrintItem : Type :=
  | PHeader (addr tags : list byte)
  | PInt (val : Z)
  | PFloat (bits : Z)
  | PStr (val : string)
  | PBool (val : bool).

Section Printing.
(** The [io.Writer] that [Print] writes to: a state and what a
    [fmt.Fprintf] to it does, which may fail. *)
Variable Writer : Type.
Variable Fprintf : PrintItem -> Writer -> Writer * option error.

Definition printed : Type := outcome ((option error * Writer) * Message).

(** After a typed read: pass a panic and an error on, print the value
    otherwise, and go on with [next] when the write succeeded. *)
Definition printValue {A} (r : outcome ((A * option error) * Message))
    (item : A -> PrintItem) (w : Writer)
    (next : Message -> Writer -> printed) : printed :=
  match r with
  | Panics p => Panics p
  | Returns ((_, Some err), msg') => Returns ((Some err, w), msg')
  | Returns ((val, None), msg') =>
      let '(w', werr) := Fprintf (item val) w in
      match werr with
      | Some err => Returns ((Some err, w'), msg')
      | None => next msg' w'
      end
  end.

(** The loop of [Print] over [msg.typetag[1:]]; a tag without a case of its
    own (a blob among them) is passed over without a read. *)
Fixpoint PrintLoop (tags : list byte) (msg : Message) (w : Writer) : printed :=
  match tags with
  | [] => Returns ((None, w), msg)
  | tag :: tags' =>
      if decide (tag = typetagInt)
      then printValue (ReadInt32 msg) PInt w (PrintLoop tags')
      else if decide (tag = typetagFloat)
      then printValue (ReadFloat32 msg) PFloat w (PrintLoop tags')
      else if decide (tag = typetagString)
      then printValue (ReadString msg) PStr w (PrintLoop tags')
      else if decide (tag = typetagTrue \/ tag = typetagFalse)
      then printValue (ReadBool msg) PBool w (PrintLoop tags')
      else PrintLoop tags' msg w
  end.

Definition Print (w : Writer) (msg : Message) : printed :=
  let '(w, err) := Fprintf (PHeader (address msg) (typetag msg)) w in
  match err with
  | Some e => Returns ((Some e, w), msg)
  | None =>
      match typetag msg with
      | [] => Panics (SliceBoundsOutOfRange 1 0)
      | _ :: tags => PrintLoop tags msg w
      end
  end.
End Printing.

Arguments printValue {Writer} Fprintf {A} r item w next.
Arguments PrintLoop {Writer} Fprintf tags msg w.
Arguments Print {Writer} Fprintf w msg.

(** A writer that keeps what it is given and never fails, as a
    [bytes.Buffer] does. *)
Definition collect (item : PrintItem) (w : list PrintItem)
  : list PrintItem * option error :=
  (w ++ [item], None).

(** ** Packets of a bundle *)

(** Where [invoke] ends up when it follows first packets down a packet: at a
    message, at a packet of a type it does not support, or at a bundle
    without packets. *)
Inductive Leaf : Type :=
  | LMessage (x : Message)
  | LOther (type_name : string)
  | LEmpty.

Fixpoint firstLeaf {Timetag : Type} (p : Packet Timetag) : Leaf :=
  match p with
  | PMessage x => LMessage x
  | PBundle (mkBundle _ packets) =>
      match packets with
      | [] => LEmpty
      | q :: _ => firstLeaf q
      end
  | POther type_name => LOther type_name
  end.

(** The number of bundles on that way. *)
Fixpoint bundleDepth {Timetag : Type} (p : Packet Timetag) : nat :=
  match p with
  | PMessage _ => 0
  | PBundle (mkBundle _ packets) =>
      match packets with
      | [] => 1
      | q :: _ => S (bundleDepth q)
      end
  | POther _ => 0
  end.

(** An error wrapped by [immediately] once for each bundle that it came up
    through. *)
Fixpoint wrapErr (depth : nat) (e : error) : error :=
  match depth with
  | O => e
  | S depth' => ErrInvokeBundle [wrapErr depth' e]
  end.

(** ** What a typed read may change *)

(** Between a message and what a typed read leaves of it: address, type-tag
    string and sender are kept, the cursor moves by one exactly when the
    read succeeded, and the argument buffer has lost bytes at its front
    only. *)
Definition read_frame (msg msg' : Message) (err : option error) : Prop :=
  address msg' = address msg
  /\ typetag msg' = typetag msg
  /\ senderAddress msg' = senderAddress msg
  /\ ttReadIndex msg'
     = match err with
       | Some _ => ttReadIndex msg
       | None => S (ttReadIndex msg)
       end
  /\ exists k, argbuf msg' = drop k (argbuf msg).

(** ** Arguments that [Print] has a case for *)

(** Numbers within the range of their type, and booleans. *)
Definition printable (a : Arg) : Prop :=
  match a with
  | AInt32 val => (- 2 ^ 31 <= val < 2 ^ 31)%Z
  | AFloat32 bits => (0 <= bits < 2 ^ 32)%Z
  | ABool _ => True
  | AString _ | ABlob _ => False
  end.

(** What [Print] writes for an argument that it reads back as written. *)
Definition argItems (a : Arg) : list PrintItem :=
  match a with
  | AInt32 val => [PInt val]
  | AFloat32 bits => [PFloat bits]
  | ABool val => [PBool val]
  | AString val => [PStr val]
  | ABlob _ => []
  end.

(** * Properties *)

(** ** Padding and scanning loops *)

Ltac Zify.zify_post_hook ::= Z.to_euclidean_division_equations.

Lemma padCount_lt n : padCount n < 4.
Proof. unfold padCount. lia. Qed.

Lemma padCount_aligned n : (n + padCount n) mod 4 = 0.
Proof. unfold padCount. lia. Qed.

Lemma padCount_zero n : n mod 4 = 0 -> padCount n = 0.
Proof. unfold padCount. lia. Qed.

Lemma padCount_pos n : n mod 4 <> 0 -> 1 <= padCount n.
Proof. unfold padCount. lia. Qed.

Lemma padCount_step j : j mod 4 <> 0 -> padCount j = S (padCount (S j)).
Proof. unfold padCount. lia. Qed.

Lemma writePadLoop_spec fuel j w :
  padCount j <= fuel ->
  writePadLoop fuel j w = w ++ replicate (padCount j) nul.
Proof.
  revert j w. induction fuel as [|fuel IH]; intros j w Hf; cbn [writePadLoop].
  - replace (padCount j) with 0 by lia. now rewrite app_nil_r.
  - destruct (decide (j mod 4 <> 0)) as [Hne|He].
    + rewrite (padCount_step j Hne) in *. rewrite IH by lia.
      unfold Buffer_WriteByte. now rewrite <- app_assoc.
    + rewrite padCount_zero by lia. now rewrite app_nil_r.
Qed.

Lemma writePadLoop_4 j w : writePadLoop 4 j w = w ++ replicate (padCount j) nul.
Proof. apply writePadLoop_spec. pose proof (padCount_lt j). lia. Qed.

Lemma alignLoop_spec fuel i : padCount i <= fuel -> alignLoop fuel i = i + padCount i.
Proof.
  revert i. induction fuel as [|fuel IH]; intros i Hf; cbn [alignLoop].
  - lia.
  - destruct (decide (i mod 4 <> 0)) as [Hne|He].
    + rewrite (padCount_step i Hne) in *. rewrite IH by lia. lia.
    + rewrite padCount_zero by lia. lia.
Qed.

Lemma alignLoop_4 i : alignLoop 4 i = i + padCount i.
Proof. apply alignLoop_spec. pose proof (padCount_lt i). lia. Qed.

Lemma readPadLoop_spec fuel j buf :
  padCount j <= fuel -> readPadLoop fuel j buf = drop (padCount j) buf.
Proof.
  revert j buf. induction fuel as [|fuel IH]; intros j buf Hf; cbn [readPadLoop].
  - replace (padCount j) with 0 by lia. reflexivity.
  - destruct (decide (j mod 4 <> 0)) as [Hne|He].
    + rewrite (padCount_step j Hne) in *. rewrite IH by lia.
      destruct buf; cbn [Buffer_ReadByte snd]; [now rewrite drop_nil | reflexivity].
    + rewrite padCount_zero by lia. reflexivity.
Qed.

Lemma writeBytesLoop_spec cs i w :
  writeBytesLoop cs i w = (i + length cs, w ++ cs).
Proof.
  revert i w. induction cs as [|c cs IH]; intros i w; simpl.
  - now rewrite Nat.add_0_r, app_nil_r.
  - rewrite IH. unfold Buffer_WriteByte. rewrite <- app_assoc. simpl.
    f_equal. lia.
Qed.

Lemma scanLoop_absent c rest i :
  c ∉ rest -> scanLoop c rest i = (i + length rest, false).
Proof.
  revert i. induction rest as [|x rest IH]; intros i Hn; simpl.
  - now rewrite Nat.add_0_r.
  - destruct (decide (x = c)) as [->|Hne].
    + exfalso. apply Hn. left.
    + rewrite IH; [f_equal; lia|]. intros Hin. apply Hn. now right.
Qed.

Lemma scanLoop_found c pre post i :
  c ∉ pre -> scanLoop c (pre ++ c :: post) i = (i + length pre, true).
Proof.
  revert i. induction pre as [|x pre IH]; intros i Hn; simpl.
  - rewrite decide_True by reflexivity. now rewrite Nat.add_0_r.
  - destruct (decide (x = c)) as [->|Hne].
    + exfalso. apply Hn. left.
    + rewrite IH; [f_equal; lia|]. intros Hin. apply Hn. now right.
Qed.

(** ** The writers and the encoder *)

Lemma WriteString_spec (val : string) (msg : Message) :
  WriteString val msg =
  Returns (None,
           set_argbuf (argbuf msg ++ list_byte_of_string val
                         ++ replicate (padCount (length (list_byte_of_string val))) nul)
                      (append_typetag typetagString msg)).
Proof.
  unfold WriteString. rewrite writeBytesLoop_spec, writePadLoop_4.
  cbn [append_typetag set_typetag argbuf Nat.add]. now rewrite <- app_assoc.
Qed.

Lemma WriteBlob_spec (blob : list byte) (msg : Message) :
  WriteBlob blob msg =
  Returns (None,
           if decide (blob = []) then msg
           else set_argbuf
                  (argbuf msg ++ putUint32 (uint32_of_int32 (Z.of_nat (length blob)))
                     ++ blob ++ replicate (padCount (length blob)) nul)
                  (append_typetag typetagBlob msg)).
Proof.
  unfold WriteBlob. destruct blob as [|b blob].
  - reflexivity.
  - rewrite decide_False by (cbn; lia). rewrite decide_False by discriminate.
    rewrite writePadLoop_4. unfold Buffer_Write, binary_Write_int32, Buffer_Write.
    cbn [append_typetag set_typetag argbuf]. now rewrite <- !app_assoc.
Qed.

Lemma bytes_spec (msg : Message) :
  bytes msg =
  (address msg ++ typetag msg
     ++ replicate (padCount (length (address msg) + length (typetag msg))) nul
     ++ argbuf msg, None).
Proof.
  unfold bytes. rewrite writePadLoop_4.
  unfold Buffer_Bytes, Buffer_Write. cbn [app Nat.add]. now rewrite <- !app_assoc.
Qed.

(** C4 fails on the code: [bytes] writes the type-tag string directly
    behind the address and pads the two together, so neither is
    null-terminated or padded on its own.  For [/address/test] with one
    [int32] it produces 20 bytes, the 15 bytes [/address/test,i], one null
    byte and the argument, where the claim has 24 (a 16-byte address, a
    4-byte type-tag string, the argument); the comma stands at offset 13.
    When the two lengths add up to a multiple of four no null byte is
    written at all: the new message at [/ab] encodes as the four bytes
    [/ab,], on which [parseMessage], which looks for the null byte after the
    type tags and aligns from the comma, panics. *)
Theorem bytes_terminates_neither_address_nor_typetag :
  (fst (bytes msg_address_test) <> wire_form_of_spec msg_address_test
   /\ length (wire_form_of_spec msg_address_test) = 24
   /\ length (fst (bytes msg_address_test)) = 20
   /\ fst (bytes msg_address_test)
      = list_byte_of_string "/address/test,i" ++ [nul] ++ putUint32 1122
   /\ fst (bytes msg_address_test) !! 13 = Some typetagPrefix)
  /\ (fst (bytes (NewMessage "/ab")) = list_byte_of_string "/ab,"
      /\ (nul ∉ fst (bytes (NewMessage "/ab")))
      /\ parseMessage (fst (bytes (NewMessage "/ab"))) None
         = Panics (SliceBoundsOutOfRange 4 1)).
Proof.
  split.
  - repeat split; vm_compute; congruence.
  - repeat split; try reflexivity.
    intros H. vm_compute in H.
    repeat (apply elem_of_cons in H as [H|H]; [discriminate|]).
    now apply elem_of_nil in H.
Qed.

(** What [WriteString] appends in general: the bytes and [padCount] null
    bytes, which is none when the length is a multiple of four and one to
    three otherwise. *)
Lemma WriteString_appended (val : string) (msg : Message) :
  let n := length (list_byte_of_string val) in
  argbuf (written (WriteString val) msg)
  = argbuf msg ++ list_byte_of_string val ++ replicate (padCount n) nul
  /\ (n mod 4 = 0 -> padCount n = 0)
  /\ (n mod 4 <> 0 -> 1 <= padCount n <= 3).
Proof.
  intros n. unfold written. rewrite WriteString_spec. split; [reflexivity|].
  split; [apply padCount_zero|]. intros H.
  pose proof (padCount_pos n H). pose proof (padCount_lt n). lia.
Qed.

(** C5 fails on the code: for a string whose length is a multiple of four
    [WriteString] appends the bytes of the string and no null byte at all,
    so the string is left without a terminator; for the empty string it
    appends nothing. *)
Theorem WriteString_aligned_length_no_terminator :
  (argbuf (written (WriteString "abcd") (NewMessage "/s")) = list_byte_of_string "abcd"
   /\ (nul ∉ argbuf (written (WriteString "abcd") (NewMessage "/s")))
   /\ argbuf (written (WriteString EmptyString) (NewMessage "/s")) = []
   /\ typetag (written (WriteString EmptyString) (NewMessage "/s")) = list_byte_of_string ",s")
  /\ (forall (val : string) (msg : Message),
         length (list_byte_of_string val) mod 4 = 0 ->
         argbuf (written (WriteString val) msg)
         = argbuf msg ++ list_byte_of_string val).
Proof.
  split.
  - repeat split; try reflexivity.
    intros H. vm_compute in H.
    repeat (apply elem_of_cons in H as [H|H]; [discriminate|]).
    now apply elem_of_nil in H.
  - intros val msg Hlen.
    destruct (WriteString_appended val msg) as (-> & Hz & _).
    rewrite (Hz Hlen). cbn [replicate]. now rewrite app_nil_r.
Qed.

(** C6, as stated, fails: writing the empty blob into a fresh message leaves
    the type-tag string at [","] and the argument buffer empty; no tag [b]
    and no zero length prefix are written. *)
Lemma WriteBlob_empty_writes_nothing :
  WriteBlob [] (NewMessage "/blob") = Returns (None, NewMessage "/blob")
  /\ typetag (written (WriteBlob []) (NewMessage "/blob")) <> [typetagPrefix; typetagBlob]
  /\ argbuf (written (WriteBlob []) (NewMessage "/blob")) <> putUint32 0.
Proof. repeat split; vm_compute; congruence. Qed.

(** C6, amended: writing an empty blob returns without an error and leaves
    the message as it was (no tag, no length prefix); writing a blob that is
    not empty appends the tag [b] to the type-tag string and, to the argument
    buffer, the 4-byte big-endian length, the payload and the null bytes
    (fewer than four) that pad the payload to a multiple of four. *)
Theorem WriteBlob_skips_empty_blob :
  forall (blob : list byte) (msg : Message),
    WriteBlob blob msg =
    Returns (None,
             if decide (length blob = 0) then msg
             else {| address := address msg;
                     typetag := typetag msg ++ [typetagBlob];
                     argbuf := argbuf msg
                                 ++ putUint32 (uint32_of_int32 (Z.of_nat (length blob)))
                                 ++ blob ++ replicate (padCount (length blob)) nul;
                     ttReadIndex := ttReadIndex msg;
                     senderAddress := senderAddress msg |}).
Proof.
  intros blob msg. rewrite WriteBlob_spec. destruct blob; reflexivity.
Qed.

(** ** The readers *)

Lemma io_ReadFull_error (b : Buffer) (n : nat) :
  snd (fst (io_ReadFull b n)) ∈ [None; Some EOF; Some ErrUnexpectedEOF].
Proof.
  unfold io_ReadFull. destruct (decide (n = 0)); [set_solver|].
  destruct b; [set_solver|]. destruct (decide _); set_solver.
Qed.

Lemma binary_Read_uint32_error (b : Buffer) :
  snd (fst (binary_Read_uint32 b)) ∈ [None; Some EOF; Some ErrUnexpectedEOF].
Proof.
  unfold binary_Read_uint32. pose proof (io_ReadFull_error b 4) as H.
  destruct (io_ReadFull b 4) as [[bs [e|]] b']; cbn in H;
    destruct bs as [|? [|? [|? [|? [|? ?]]]]]; cbn; first [exact H | set_solver].
Qed.

Lemma binary_Read_int32_error (b : Buffer) :
  snd (fst (binary_Read_int32 b)) ∈ [None; Some EOF; Some ErrUnexpectedEOF].
Proof.
  unfold binary_Read_int32. pose proof (binary_Read_uint32_error b) as H.
  destruct (binary_Read_uint32 b) as [[u e] b']. exact H.
Qed.

Lemma Buffer_Read_error (b : Buffer) (n : nat) :
  snd (fst (Buffer_Read b n)) ∈ [None; Some EOF; Some ErrUnexpectedEOF].
Proof.
  unfold Buffer_Read. destruct b; cbn; [|set_solver].
  destruct (decide (n = 0)); set_solver.
Qed.

Lemma index_typetag_Some (msg : Message) (tag : byte) :
  typetag msg !! ttReadIndex msg = Some tag -> index_typetag msg = Returns tag.
Proof. unfold index_typetag. now intros ->. Qed.

Lemma index_typetag_past_end (msg : Message) :
  length (typetag msg) <= ttReadIndex msg ->
  index_typetag msg
  = Panics (IndexOutOfRange (ttReadIndex msg) (length (typetag msg))).
Proof.
  intros H. unfold index_typetag. now rewrite (lookup_ge_None_2 _ _ H).
Qed.

(** C7: when the tag under the cursor is not the one a typed read asks for,
    the read returns the zero value and the type-mismatch error, and the
    message, its cursor and its argument buffer included, is left as it
    was. *)
Theorem typed_read_mismatch_leaves_message :
  forall (msg : Message) (tag : byte),
    typetag msg !! ttReadIndex msg = Some tag ->
    (tag <> typetagInt ->
     ReadInt32 msg = Returns ((0%Z, Some (ErrUnexpectedType tag)), msg))
    /\ (tag <> typetagFloat ->
        ReadFloat32 msg = Returns ((0%Z, Some (ErrUnexpectedType tag)), msg))
    /\ (tag <> typetagTrue -> tag <> typetagFalse ->
        ReadBool msg = Returns ((false, Some (ErrUnexpectedType tag)), msg))
    /\ (tag <> typetagString ->
        ReadString msg = Returns ((EmptyString, Some (ErrUnexpectedType tag)), msg))
    /\ (tag <> typetagBlob ->
        ReadBlob msg = Returns (([], Some (ErrUnexpectedType tag)), msg)).
Proof.
  intros msg tag Hidx. apply index_typetag_Some in Hidx.
  unfold ReadInt32, ReadFloat32, ReadBool, ReadString, ReadBlob. rewrite Hidx.
  repeat split; intros; rewrite decide_True; auto.
Qed.

(** A message whose next tag is [s]: every typed read but [ReadString]
    reports the mismatch and leaves the cursor at 1 and the buffer whole. *)
Lemma typed_read_mismatch_leaves_message_witness :
  let msg := written (WriteString "hello") (NewMessage "/w") in
  typetag msg !! ttReadIndex msg = Some typetagString
  /\ ReadInt32 msg = Returns ((0%Z, Some (ErrUnexpectedType typetagString)), msg)
  /\ ReadFloat32 msg = Returns ((0%Z, Some (ErrUnexpectedType typetagString)), msg)
  /\ ReadBool msg = Returns ((false, Some (ErrUnexpectedType typetagString)), msg)
  /\ ReadBlob msg = Returns (([], Some (ErrUnexpectedType typetagString)), msg).
Proof.
  intros msg.
  assert (H : typetag msg !! ttReadIndex msg = Some typetagString) by reflexivity.
  destruct (typed_read_mismatch_leaves_message msg typetagString H)
    as (Hi & Hf & Hb & _ & Hl).
  split; [exact H|]. split; [apply Hi; discriminate|].
  split; [apply Hf; discriminate|].
  split; [apply Hb; discriminate | apply Hl; discriminate].
Defined.

(** C10: the typed reads index the type-tag string at the cursor without a
    bounds check.  With the cursor at the length of the type-tag string (all
    arguments consumed) each of them is an index out of range, a run-time
    panic and not a returned error; and no operation on a message ever
    returns [ErrIndexOutOfBounds]. *)
Theorem typed_read_past_end_panics :
  forall msg : Message,
    ttReadIndex msg = length (typetag msg) ->
    let n := length (typetag msg) in
    (ReadInt32 msg = Panics (IndexOutOfRange n n)
     /\ ReadFloat32 msg = Panics (IndexOutOfRange n n)
     /\ ReadBool msg = Panics (IndexOutOfRange n n)
     /\ ReadString msg = Panics (IndexOutOfRange n n)
     /\ ReadBlob msg = Panics (IndexOutOfRange n n))
    /\ (forall m : Message,
           returned_error (ReadInt32 m) <> Some ErrIndexOutOfBounds
           /\ returned_error (ReadFloat32 m) <> Some ErrIndexOutOfBounds
           /\ returned_error (ReadBool m) <> Some ErrIndexOutOfBounds
           /\ returned_error (ReadString m) <> Some ErrIndexOutOfBounds
           /\ returned_error (ReadBlob m) <> Some ErrIndexOutOfBounds
           /\ (forall v, written_error (WriteInt32 v m) <> Some ErrIndexOutOfBounds)
           /\ (forall v, written_error (WriteFloat32 v m) <> Some ErrIndexOutOfBounds)
           /\ (forall v, written_error (WriteBool v m) <> Some ErrIndexOutOfBounds)
           /\ (forall v, written_error (WriteString v m) <> Some ErrIndexOutOfBounds)
           /\ (forall v, written_error (WriteBlob v m) <> Some ErrIndexOutOfBounds)
           /\ (forall data, written_error (parseArguments data m)
                            <> Some ErrIndexOutOfBounds)
           /\ snd (bytes m) <> Some ErrIndexOutOfBounds
           /\ snd (clone m) <> Some ErrIndexOutOfBounds
           /\ (forall Regexp getRegEx MatchString addr,
                  snd (Match Regexp getRegEx MatchString m addr)
                  <> Some ErrIndexOutOfBounds))
    /\ (forall data sender,
           parsed_error (parseMessage data sender) <> Some ErrIndexOutOfBounds).
Proof.
  intros msg Hend n.
  assert (Hidx : index_typetag msg = Panics (IndexOutOfRange n n)).
  { rewrite index_typetag_past_end by lia. now rewrite Hend. }
  split; [|split].
  - unfold ReadInt32, ReadFloat32, ReadBool, ReadString, ReadBlob.
    rewrite Hidx. repeat split.
  - intros m.
    assert (Hio : forall e : option error,
               e ∈ [None; Some EOF; Some ErrUnexpectedEOF] ->
               e <> Some ErrIndexOutOfBounds).
    { intros e. rewrite !elem_of_cons, elem_of_nil.
      intros [->|[->|[->|[]]]]; discriminate. }
    repeat apply conj.
    + unfold ReadInt32. destruct (index_typetag m); [|discriminate].
      destruct (decide _); [discriminate|].
      pose proof (binary_Read_int32_error (argbuf m)) as H.
      destruct (binary_Read_int32 (argbuf m)) as [[x [e|]] b]; [|discriminate].
      now apply Hio.
    + unfold ReadFloat32. destruct (index_typetag m); [|discriminate].
      destruct (decide _); [discriminate|].
      pose proof (binary_Read_uint32_error (argbuf m)) as H.
      destruct (binary_Read_uint32 (argbuf m)) as [[x [e|]] b]; [|discriminate].
      now apply Hio.
    + unfold ReadBool. destruct (index_typetag m); [|discriminate].
      destruct (decide _); discriminate.
    + unfold ReadString. destruct (index_typetag m); [|discriminate].
      destruct (decide _); [discriminate|].
      destruct (readStringLoop 0 (argbuf m) []). discriminate.
    + unfold ReadBlob. destruct (index_typetag m); [|discriminate].
      destruct (decide _); [discriminate|].
      pose proof (binary_Read_int32_error (argbuf m)) as H.
      destruct (binary_Read_int32 (argbuf m)) as [[x [e|]] b].
      * now apply Hio.
      * destruct (decide _); [discriminate|].
        pose proof (Buffer_Read_error b (Z.to_nat x)) as H'.
        destruct (Buffer_Read b (Z.to_nat x)) as [[[bl k] [e|]] b'];
          [|discriminate].
        now apply Hio.
    + discriminate.
    + discriminate.
    + intros []; discriminate.
    + intros v. rewrite WriteString_spec. discriminate.
    + intros v. rewrite WriteBlob_spec. discriminate.
    + intros data. unfold parseArguments. destruct data; [discriminate|].
      destruct (decide _); [discriminate|].
      destruct (scanLoop nul (b :: data) 0) as [i found].
      destruct (slice_from _ _); discriminate.
    + discriminate.
    + discriminate.
    + intros Regexp getRegEx MatchString addr. unfold Match.
      destruct (getRegEx _); [destruct (MatchString _ _)|]; discriminate.
  - intros data sender. unfold parseMessage.
    destruct (scanLoop typetagPrefix data 0) as [i found].
    match goal with |- context [parseArguments ?d ?m] =>
      generalize m; intros m0; generalize d; intros d0 end.
    unfold parseArguments. destruct d0; [discriminate|].
    destruct (decide _); [discriminate|].
    destruct (scanLoop nul (b :: d0) 0) as [j f].
    destruct (slice_from _ _); discriminate.
Qed.

(** After its only argument has been read, a message has its cursor at the
    end of the type-tag string and every further read panics. *)
Lemma typed_read_past_end_panics_witness :
  let msg := {| address := list_byte_of_string "/address/test";
                typetag := list_byte_of_string ",i";
                argbuf := []; ttReadIndex := 2; senderAddress := None |} in
  ReadInt32 msg_address_test = Returns ((1122%Z, None), msg)
  /\ ReadInt32 msg = Panics (IndexOutOfRange 2 2)
  /\ ReadBool msg = Panics (IndexOutOfRange 2 2).
Proof.
  intros msg.
  destruct (typed_read_past_end_panics msg eq_refl) as ((Hi & _ & Hb & _) & _).
  split; [reflexivity|]. split; [exact Hi | exact Hb].
Defined.

(** ** The decoder *)




(** When a comma does occur, [parseMessage] takes the bytes before the first
    one as the address and never answers [ErrInvalidTypeTag]. *)
Lemma parseMessage_with_comma (pre post : list byte) (sender : option string) :
  typetagPrefix ∉ pre ->
  parseMessage (pre ++ typetagPrefix :: post) sender
  = match parseArguments (typetagPrefix :: post)
            {| address := pre; typetag := []; argbuf := [];
               ttReadIndex := 1; senderAddress := sender |} with
    | Panics p => Panics p
    | Returns (_, msg') => Returns (Some msg', None)
    end.
Proof.
  intros H. unfold parseMessage. rewrite (scanLoop_found _ _ _ _ H).
  cbn [Nat.add]. rewrite take_app_length, drop_app_length.
  unfold parseArguments. rewrite decide_False by (intros E; now apply E).
  destruct (scanLoop nul (typetagPrefix :: post) 0) as [j f].
  destruct (slice_from _ _); reflexivity.
Qed.

(** ** Encoding and then decoding *)

(** C1 fails on the code: the message of the specification's first scenario
    does not survive encoding and decoding.  The decoder finds the address
    and the type-tag string, but it aligns the start of the arguments from
    the comma instead of from the start of the message, so the argument
    buffer of the decoded message begins one byte too late and holds three
    bytes; [ReadInt32] returns 1122 on the original and fails with
    [io.ErrUnexpectedEOF] on the decoded message. *)
Theorem decode_encode_address_test_loses_argument :
  let decoded := {| address := list_byte_of_string "/address/test";
                    typetag := list_byte_of_string ",i";
                    argbuf := drop 1 (putUint32 1122);
                    ttReadIndex := 1; senderAddress := None |} in
  parseMessage (fst (bytes msg_address_test)) None = Returns (Some decoded, None)
  /\ argbuf msg_address_test = putUint32 1122
  /\ decoded <> msg_address_test
  /\ returned_value (ReadInt32 msg_address_test) = Some (1122%Z, None)
  /\ returned_value (ReadInt32 decoded) = Some (0%Z, Some ErrUnexpectedEOF).
Proof. repeat split; try reflexivity. vm_compute. discriminate. Qed.

(** ** Matching *)

(** C8, as stated, fails: with the registered string [/lfo/?] and an
    incoming message at [/lfo/1], the pattern [/lfo/?] does match the
    address [/lfo/1], but [Match] answers no, because it compiles the
    message's address [/lfo/1] and tests the registered string against it;
    the handler registered at [/lfo/?] is not called.  The other way round,
    a message sent to [/lfo/?] matches the registered string [/lfo/1]: the
    incoming address is what is read as a pattern. *)
Lemma Match_reads_message_address_as_pattern :
  OscPattern.matches "/lfo/?" "/lfo/1" = true
  /\ oscMatch (NewMessage "/lfo/1") "/lfo/?" = (false, None)
  /\ oscMatch (NewMessage "/lfo/?") "/lfo/1" = (true, None)
  /\ Invoke oscMatch2 map_to_list table_lfo (NewMessage "/lfo/1") false []
     = ([], None).
Proof. repeat split; vm_compute; reflexivity. Qed.

(** In the pattern language of the specification a string without
    metacharacters compiles to itself and accepts itself only. *)
Lemma compile_literal (s : list byte) (fuel : nat) :
  OscPattern.literal s -> length s <= fuel ->
  OscPattern.compile fuel s = Some (OscPattern.TLit <$> s).
Proof.
  revert fuel. induction s as [|c s IH]; intros fuel Hl Hf;
    [destruct fuel; reflexivity|].
  destruct fuel as [|fuel]; [cbn in Hf; lia|].
  apply Forall_cons in Hl as [Hc Hl].
  cbn [OscPattern.compile].
  repeat (rewrite decide_False by (intros E; apply Hc; subst c; set_solver)).
  rewrite decide_False by (intros [E|E]; apply Hc; subst c; set_solver).
  rewrite IH by (auto; cbn in Hf; lia). reflexivity.
Qed.

Lemma matchTokens_literal (s x : list byte) :
  OscPattern.matchTokens (OscPattern.TLit <$> s) x = true <-> x = s.
Proof.
  revert x. induction s as [|c s IH]; intros x; cbn.
  - apply bool_decide_eq_true.
  - destruct x as [|y x]; [split; discriminate|].
    rewrite andb_true_iff, bool_decide_eq_true, IH. split.
    + now intros [-> ->].
    + intros [= -> ->]. now split.
Qed.

(** A registered string is matched by a message with a literal address only
    when the two are the same string, whatever metacharacters the registered
    string holds. *)
Lemma oscMatch_literal_address (msg : Message) (registered : string) :
  OscPattern.literal (address msg) ->
  oscMatch msg registered
  = (bool_decide (registered = string_of_list_byte (address msg)), None).
Proof.
  intros Hl. unfold oscMatch, Match, OscPattern.getRegEx, OscPattern.MatchString.
  rewrite list_byte_of_string_of_list_byte.
  rewrite compile_literal by auto.
  destruct (OscPattern.matchTokens _ _) eqn:E.
  - apply matchTokens_literal in E. rewrite bool_decide_eq_true_2; [reflexivity|].
    rewrite <- E. now rewrite string_of_list_byte_of_string.
  - rewrite bool_decide_eq_false_2; [reflexivity|]. intros ->.
    rewrite list_byte_of_string_of_list_byte in E.
    assert (OscPattern.matchTokens (OscPattern.TLit <$> address msg) (address msg)
            = true) as E' by now apply matchTokens_literal.
    congruence.
Qed.

(** C8, amended: in pattern-match mode the address of the incoming message
    is what is compiled as the pattern, and the registered string is the
    subject tested against it: [Match] answers with the compilation error
    when the message's address does not compile, and otherwise with whether
    the compiled message address accepts the registered string.  The
    registered string is never compiled: how it would compile has no bearing
    on the answer, and a message whose address holds no metacharacter matches
    a registered string only when the two are the same string. *)
Theorem Match_compiles_message_address :
  (forall (Regexp : Type) (getRegEx : string -> Regexp + string)
          (MatchString : Regexp -> string -> bool)
          (msg : Message) (registered : string),
      Match Regexp getRegEx MatchString msg registered
      = match getRegEx (string_of_list_byte (address msg)) with
        | inl exp => (MatchString exp registered, None)
        | inr bad => (false, Some (ErrRegexp bad))
        end
      /\ (forall getRegEx' : string -> Regexp + string,
             getRegEx' (string_of_list_byte (address msg))
             = getRegEx (string_of_list_byte (address msg)) ->
             Match Regexp getRegEx' MatchString msg registered
             = Match Regexp getRegEx MatchString msg registered))
  /\ (forall (msg : Message) (registered : string),
         OscPattern.literal (address msg) ->
         oscMatch msg registered
         = (bool_decide (registered = string_of_list_byte (address msg)), None)).
Proof.
  split.
  - intros Regexp getRegEx MatchString msg registered. split.
    + unfold Match. destruct (getRegEx _); [|reflexivity].
      destruct (MatchString _ _); reflexivity.
    + intros getRegEx' H. unfold Match. now rewrite H.
  - apply oscMatch_literal_address.
Qed.

(** The message at [/lfo/1] does not match the registered string [/lfo/?]. *)
Lemma Match_compiles_message_address_witness :
  OscPattern.literal (address (NewMessage "/lfo/1"))
  /\ oscMatch (NewMessage "/lfo/1") "/lfo/?" = (false, None).
Proof.
  assert (H : OscPattern.literal (address (NewMessage "/lfo/1")))
    by (apply (bool_decide_unpack _); vm_compute; exact I).
  split; [exact H|].
  exact (proj2 Match_compiles_message_address (NewMessage "/lfo/1")
               "/lfo/?"%string H).
Defined.

(** ** The dispatcher *)

Section DispatcherFacts.
Context {World : Type}.
Variable Match2 : Message -> string -> bool -> bool * option error.
Variable range : PatternMatching World -> list (string * MessageHandler World).

Lemma InvokeLoop_app_no_match pre rest msg exactMatch (w : World) :
  Forall (fun entry => Match2 msg entry.1 exactMatch = (false, None)) pre ->
  InvokeLoop Match2 (pre ++ rest) msg exactMatch w
  = InvokeLoop Match2 rest msg exactMatch w.
Proof.
  induction 1 as [|[addr handler] pre Hm _ IH]; [reflexivity|].
  cbn [app InvokeLoop]. cbn in Hm. now rewrite Hm.
Qed.

Lemma InvokeLoop_none_match entries msg exactMatch (w : World) :
  Forall (fun entry => Match2 msg entry.1 exactMatch = (false, None)) entries ->
  InvokeLoop Match2 entries msg exactMatch w = (w, None).
Proof.
  intros H. rewrite <- (app_nil_r entries).
  now rewrite InvokeLoop_app_no_match.
Qed.

Lemma InvokeLoop_match_error pre addr handler post msg exactMatch err (w : World) :
  Forall (fun entry => Match2 msg entry.1 exactMatch = (false, None)) pre ->
  snd (Match2 msg addr exactMatch) = Some err ->
  InvokeLoop Match2 (pre ++ (addr, handler) :: post) msg exactMatch w
  = (w, Some err).
Proof.
  intros Hpre Herr. rewrite InvokeLoop_app_no_match by assumption.
  cbn [InvokeLoop]. destruct (Match2 msg addr exactMatch) as [matched e].
  cbn in Herr. now subst e.
Qed.

(** The packets of a bundle after the first never reach the dispatcher. *)
Lemma immediately_visits_first_packet_only
    {Timetag : Type} (h : PatternMatching World) (t : Timetag)
    (p : Packet Timetag) (rest : list (Packet Timetag)) exactMatch (w : World) :
  immediately Match2 range h (mkBundle t (p :: rest)) exactMatch w
  = immediately Match2 range h (mkBundle t [p]) exactMatch w.
Proof. reflexivity. Qed.

End DispatcherFacts.

(** C2 fails on the code: a bundle of the two messages [/a] and [/b], due
    before the clock reading, is dispatched to a table that holds a handler
    for each.  The specification has both handlers called, [/a] first; the
    code calls the handler of [/a] and returns, and the message [/b] is never
    dispatched.  Whatever the matcher, the table and the clock, dispatching a
    bundle is dispatching the bundle of its first packet alone. *)
Theorem Dispatch_bundle_stops_after_first_packet :
  (Dispatch oscMatch2 id (fun _ w => w) map_to_list table_a_b 5%Z bundle_a_b true []
   = ([("A"%string, NewMessage "/a")], None)
   /\ dispatch_all oscMatch2 map_to_list table_a_b (PBundle bundle_a_b) true []
      = ([("A"%string, NewMessage "/a"); ("B"%string, NewMessage "/b")], None))
  /\ (forall (World Timetag : Type) Match2 (Timetag_Time : Timetag -> Z) wait range
             (h : PatternMatching World) now t p rest exactMatch (w : World),
         Dispatch Match2 Timetag_Time wait range h now (mkBundle t (p :: rest))
                  exactMatch w
         = Dispatch Match2 Timetag_Time wait range h now (mkBundle t [p])
                    exactMatch w).
Proof.
  split; [split; vm_compute; reflexivity|].
  intros. unfold Dispatch. cbn [Bundle_Timetag].
  now rewrite !(immediately_visits_first_packet_only _ _ _ _ p rest).
Qed.

(** C3, as stated, fails: the table holds the patterns [/x/?] and [/x/*],
    registered in that order, and a message arrives at [/x/?].  Both
    registered strings match, whichever of the two is read as the pattern, so
    the specification has both handlers called; in each of the orders in which
    the table can be visited the code calls exactly one handler. *)
Lemma Invoke_two_matches_one_call :
  (OscPattern.matches "/x/?" "/x/?" = true
   /\ OscPattern.matches "/x/*" "/x/?" = true
   /\ oscMatch (NewMessage "/x/?") "/x/?" = (true, None)
   /\ oscMatch (NewMessage "/x/?") "/x/*" = (true, None))
  /\ length (permutations (map_to_list table_two_patterns)) = 2
  /\ Forall (fun order =>
               length (fst (Invoke oscMatch2 (fun _ => order) table_two_patterns
                              (NewMessage "/x/?") false [])) = 1)
            (permutations (map_to_list table_two_patterns)).
Proof.
  split; [repeat split; vm_compute; reflexivity|].
  split; [vm_compute; reflexivity|].
  vm_compute. repeat constructor.
Qed.

(** C3, amended: [Invoke] visits the entries of the table in the order in
    which the map is ranged over (the table is an unordered map and keeps no
    order of registration) and stops at the first entry that matches: the
    handler of that entry, which is the one registered at that address, is
    the only one called, and its result is the result of [Invoke]; entries
    visited before it did not match, entries after it are not looked at. *)
Theorem Invoke_calls_first_match_only :
  forall (World : Type)
         (Match2 : Message -> string -> bool -> bool * option error)
         (range : PatternMatching World -> list (string * MessageHandler World))
         (h : PatternMatching World) (msg : Message) (exactMatch : bool)
         (w : World) pre addr handler post,
    range h ≡ₚ map_to_list h ->
    range h = pre ++ (addr, handler) :: post ->
    Forall (fun entry => Match2 msg entry.1 exactMatch = (false, None)) pre ->
    Match2 msg addr exactMatch = (true, None) ->
    Invoke Match2 range h msg exactMatch w = Handle handler msg w
    /\ h !! addr = Some handler.
Proof.
  intros World Match2 range h msg exactMatch w pre addr handler post
         Hperm Hr Hpre Hm.
  split.
  - unfold Invoke. rewrite Hr, InvokeLoop_app_no_match by assumption.
    cbn [InvokeLoop]. now rewrite Hm.
  - unfold PatternMatching in *. apply elem_of_map_to_list.
    rewrite <- Hperm, Hr.
    apply elem_of_app. right. left.
Qed.

(** The table holds [/a], which the message does not match, and two entries
    that it does match; only the first of those in the order of the visit is
    called. *)
Lemma Invoke_calls_first_match_only_witness :
  Invoke oscMatch2 map_to_list table_three (NewMessage "/x/?") false []
  = ([("one"%string, NewMessage "/x/?")], None)
  /\ table_three !! "/x/?"%string = Some (logging "one").
Proof.
  apply (Invoke_calls_first_match_only Log oscMatch2 map_to_list
           table_three (NewMessage "/x/?") false []
           [("/a"%string, logging "A")] "/x/?"%string (logging "one")
           [("/x/*"%string, logging "star")]).
  - reflexivity.
  - reflexivity.
  - repeat constructor.
  - reflexivity.
Defined.

(** ** When encoding and then decoding does give the message back *)

Lemma padCount_add_aligned (a n : nat) :
  a mod 4 = 0 -> padCount (a + n) = padCount n.
Proof. unfold padCount. lia. Qed.

(** For an address free of commas whose length is a multiple of four and a
    type-tag string that begins with a comma, holds no null byte and has a
    length which is not a multiple of four, the decoder recovers the address,
    the type-tag string and the argument bytes of the encoded message. *)
Lemma parseMessage_bytes_aligned_address (msg : Message) (sender : option string) :
  typetagPrefix ∉ address msg ->
  head (typetag msg) = Some typetagPrefix ->
  nul ∉ typetag msg ->
  length (address msg) mod 4 = 0 ->
  length (typetag msg) mod 4 <> 0 ->
  parseMessage (fst (bytes msg)) sender
  = Returns (Some {| address := address msg; typetag := typetag msg;
                     argbuf := argbuf msg; ttReadIndex := 1;
                     senderAddress := sender |}, None).
Proof.
  intros Hcomma Hhd Hnul Ha Ht. rewrite bytes_spec. cbn [fst].
  destruct (typetag msg) as [|t0 tags] eqn:Etags; [discriminate|].
  injection Hhd as ->.
  rewrite padCount_add_aligned by assumption.
  pose proof (padCount_pos _ Ht) as Hpos.
  destruct (padCount (length (typetagPrefix :: tags))) as [|k] eqn:Epad; [lia|].
  cbn [app]. rewrite parseMessage_with_comma by assumption.
  unfold parseArguments. rewrite decide_False by (intros E; now apply E).
  change (typetagPrefix :: tags ++ replicate (S k) nul ++ argbuf msg)
    with ((typetagPrefix :: tags) ++ nul :: (replicate k nul ++ argbuf msg)).
  rewrite scanLoop_found by assumption. cbn [Nat.add].
  rewrite alignLoop_4, Epad. unfold slice_from.
  rewrite decide_True
    by (rewrite length_app; cbn [length]; rewrite length_app, length_replicate; lia).
  rewrite take_app_length.
  replace (length (typetagPrefix :: tags) + S k)
    with (length ((typetagPrefix :: tags) ++ replicate (S k) nul))
    by (rewrite length_app, length_replicate; lia).
  change (nul :: replicate k nul ++ argbuf msg)
    with (replicate (S k) nul ++ argbuf msg).
  rewrite app_assoc, drop_app_length. reflexivity.
Qed.

(** ** Alignment of what the writers produce *)

Lemma putUint32_length (v : Z) : length (putUint32 v) = 4.
Proof. reflexivity. Qed.

Lemma writers_keep_argbuf_aligned (msg : Message) :
  length (argbuf msg) mod 4 = 0 ->
  (forall v, length (argbuf (written (WriteInt32 v) msg)) mod 4 = 0)
  /\ (forall v, length (argbuf (written (WriteFloat32 v) msg)) mod 4 = 0)
  /\ (forall v, length (argbuf (written (WriteBool v) msg)) mod 4 = 0)
  /\ (forall v, length (argbuf (written (WriteString v) msg)) mod 4 = 0)
  /\ (forall v, length (argbuf (written (WriteBlob v) msg)) mod 4 = 0).
Proof.
  intros H. repeat apply conj; intros v.
  - unfold written, WriteInt32, binary_Write_int32, Buffer_Write.
    cbn [set_argbuf argbuf append_typetag set_typetag].
    rewrite length_app, putUint32_length. lia.
  - unfold written, WriteFloat32, binary_Write_float32, Buffer_Write.
    cbn [set_argbuf argbuf append_typetag set_typetag].
    rewrite length_app, putUint32_length. lia.
  - destruct v; exact H.
  - unfold written. rewrite WriteString_spec. cbn [set_argbuf argbuf].
    rewrite !length_app, length_replicate.
    pose proof (padCount_aligned (length (list_byte_of_string v))). lia.
  - unfold written. rewrite WriteBlob_spec. destruct (decide _); [exact H|].
    cbn [set_argbuf argbuf].
    rewrite !length_app, length_replicate, putUint32_length.
    pose proof (padCount_aligned (length v)). lia.
Qed.

Lemma bytes_length_aligned (msg : Message) :
  length (argbuf msg) mod 4 = 0 -> length (fst (bytes msg)) mod 4 = 0.
Proof.
  intros H. rewrite bytes_spec. cbn [fst].
  rewrite !length_app, length_replicate.
  pose proof (padCount_aligned (length (address msg) + length (typetag msg))).
  lia.
Qed.

(** ** Big-endian integers *)

Lemma Z_of_byte_of_Z (z : Z) : Z_of_byte (byte_of_Z z) = (z mod 256)%Z.
Proof.
  unfold Z_of_byte, byte_of_Z.
  assert (0 <= z mod 256 < 256)%Z as Hr by (apply Z.mod_pos_bound; lia).
  destruct (Byte.of_N (Z.to_N (z mod 256))) as [b|] eqn:E.
  - apply Byte.to_of_N in E. unfold default, from_option, id. rewrite E. lia.
  - apply Byte.of_N_None_iff in E. lia.
Qed.

Ltac byte_bits :=
  repeat match goal with
         | |- context [Z.testbit (?a mod 2 ^ ?m) ?i] =>
             first [ rewrite (Z.testbit_neg_r (a mod 2 ^ m) i) by lia
                   | rewrite (Z.mod_pow2_bits_low a m i) by lia
                   | rewrite (Z.mod_pow2_bits_high a m i) by lia ]
         end;
  rewrite ?Z.shiftr_spec by lia;
  rewrite ?orb_false_r, ?orb_false_l.

Lemma getUint32_putUint32 (u : Z) :
  (0 <= u < 2 ^ 32)%Z ->
  getUint32 (byte_of_Z (Z.shiftr u 24)) (byte_of_Z (Z.shiftr u 16))
            (byte_of_Z (Z.shiftr u 8)) (byte_of_Z u) = u.
Proof.
  intros Hu. unfold getUint32. rewrite !Z_of_byte_of_Z.
  rewrite <- (Z.mod_small u (2 ^ 32)) at 5 by lia.
  change 256%Z with (2 ^ 8)%Z.
  apply Z.bits_inj'. intros n Hn.
  rewrite !Z.lor_spec, !Z.shiftl_spec by lia.
  destruct (Z.lt_ge_cases n 8); [|destruct (Z.lt_ge_cases n 16);
    [|destruct (Z.lt_ge_cases n 24); [|destruct (Z.lt_ge_cases n 32)]]];
    byte_bits; try reflexivity; f_equal; lia.
Qed.

Lemma int32_of_uint32_of_int32 (v : Z) :
  (- 2 ^ 31 <= v < 2 ^ 31)%Z -> int32_of_uint32 (uint32_of_int32 v) = v.
Proof.
  intros Hv. unfold int32_of_uint32, uint32_of_int32.
  destruct (Z.ltb_spec (v mod 2 ^ 32) (2 ^ 31)); lia.
Qed.

(** What [WriteInt32] writes, [ReadInt32] reads back: on a message whose
    argument buffer was empty and whose cursor stands at the new tag. *)
Lemma ReadInt32_WriteInt32 (v : Z) (msg : Message) :
  (- 2 ^ 31 <= v < 2 ^ 31)%Z ->
  argbuf msg = [] ->
  ttReadIndex msg = length (typetag msg) ->
  ReadInt32 (written (WriteInt32 v) msg)
  = Returns ((v, None),
             {| address := address msg; typetag := typetag msg ++ [typetagInt];
                argbuf := []; ttReadIndex := S (ttReadIndex msg);
                senderAddress := senderAddress msg |}).
Proof.
  intros Hv Hbuf Hidx. unfold written, WriteInt32, ReadInt32, index_typetag.
  cbn [append_typetag set_typetag set_argbuf typetag ttReadIndex argbuf].
  rewrite Hidx, list_lookup_middle by reflexivity.
  rewrite decide_False by (intros E; now apply E).
  rewrite Hbuf. unfold binary_Write_int32, Buffer_Write, binary_Read_int32,
    binary_Read_uint32, io_ReadFull, putUint32.
  cbn [app length decide_rel]. 
  rewrite decide_False by lia. rewrite decide_True by lia.
  cbn [take drop firstn skipn].
  rewrite getUint32_putUint32 by (unfold uint32_of_int32; apply Z.mod_pos_bound; lia).
  rewrite int32_of_uint32_of_int32 by assumption.
  unfold incr_ttReadIndex, set_argbuf, append_typetag, set_typetag.
  cbn [address typetag argbuf ttReadIndex senderAddress].
  now rewrite ?Hidx.
Qed.

(** * Further properties of the message operations *)

(** ** Reading numbers *)

Lemma binary_Read_uint32_ok (u : Z) (rest : Buffer) :
  (0 <= u < 2 ^ 32)%Z ->
  binary_Read_uint32 (putUint32 u ++ rest) = ((u, None), rest).
Proof.
  intros Hu. unfold binary_Read_uint32, io_ReadFull, putUint32.
  rewrite decide_False by lia. cbn [app length].
  rewrite decide_True by lia. cbn [take drop firstn skipn].
  now rewrite getUint32_putUint32.
Qed.

Lemma binary_Read_int32_ok (v : Z) (rest : Buffer) :
  (- 2 ^ 31 <= v < 2 ^ 31)%Z ->
  binary_Read_int32 (putUint32 (uint32_of_int32 v) ++ rest) = ((v, None), rest).
Proof.
  intros Hv. unfold binary_Read_int32.
  rewrite binary_Read_uint32_ok by (unfold uint32_of_int32; apply Z.mod_pos_bound; lia).
  now rewrite int32_of_uint32_of_int32.
Qed.

Lemma binary_Read_uint32_short (b : Buffer) :
  length b < 4 ->
  binary_Read_uint32 b
  = ((0%Z, Some (if decide (length b = 0) then EOF else ErrUnexpectedEOF)), []).
Proof.
  intros Hlen. unfold binary_Read_uint32, io_ReadFull.
  rewrite decide_False by lia.
  destruct b as [|b0 b]; [reflexivity|].
  rewrite decide_False by lia. rewrite decide_False by (cbn; lia).
  destruct (_ ++ _) as [|? [|? [|? [|? [|? ?]]]]]; reflexivity.
Qed.

Lemma binary_Read_int32_short (b : Buffer) :
  length b < 4 ->
  binary_Read_int32 b
  = ((0%Z, Some (if decide (length b = 0) then EOF else ErrUnexpectedEOF)), []).
Proof.
  intros Hlen. unfold binary_Read_int32.
  now rewrite binary_Read_uint32_short.
Qed.

(** X1: [ReadInt32] gives back an [int32] that [WriteInt32] has encoded: with the
    tag [i] under the cursor and the four bytes of [v] at the front of the
    argument buffer it returns [v], takes exactly those four bytes and moves
    the cursor by one. *)
Theorem ReadInt32_decodes_written_int32 :
  forall (msg : Message) (v : Z) (rest : list byte),
    typetag msg !! ttReadIndex msg = Some typetagInt ->
    argbuf msg = argBytes (AInt32 v) ++ rest ->
    (- 2 ^ 31 <= v < 2 ^ 31)%Z ->
    ReadInt32 msg
    = Returns ((v, None),
               {| address := address msg; typetag := typetag msg;
                  argbuf := rest; ttReadIndex := S (ttReadIndex msg);
                  senderAddress := senderAddress msg |}).
Proof.
  intros msg v rest Htag Hbuf Hv. unfold ReadInt32.
  rewrite (index_typetag_Some _ _ Htag).
  rewrite decide_False by (intros E; now apply E).
  rewrite Hbuf. cbn [argBytes]. rewrite binary_Read_int32_ok by assumption.
  reflexivity.
Qed.

Lemma ReadInt32_decodes_written_int32_witness :
  let msg := writeArgs [AInt32 (-5); AInt32 7] (NewMessage "/n") in
  exists msg',
    ReadInt32 msg = Returns (((-5)%Z, None), msg')
    /\ argbuf msg' = argBytes (AInt32 7) /\ ttReadIndex msg' = 2.
Proof.
  intros msg. eexists. split.
  - apply (ReadInt32_decodes_written_int32 msg (-5) (argBytes (AInt32 7)));
      [reflexivity | reflexivity | lia].
  - split; reflexivity.
Defined.

(** X2: [ReadFloat32] likewise gives back the bit pattern that [WriteFloat32]
    has encoded. *)
Theorem ReadFloat32_decodes_written_float32 :
  forall (msg : Message) (bits : Z) (rest : list byte),
    typetag msg !! ttReadIndex msg = Some typetagFloat ->
    argbuf msg = argBytes (AFloat32 bits) ++ rest ->
    (0 <= bits < 2 ^ 32)%Z ->
    ReadFloat32 msg
    = Returns ((bits, None),
               {| address := address msg; typetag := typetag msg;
                  argbuf := rest; ttReadIndex := S (ttReadIndex msg);
                  senderAddress := senderAddress msg |}).
Proof.
  intros msg bits rest Htag Hbuf Hb. unfold ReadFloat32.
  rewrite (index_typetag_Some _ _ Htag).
  rewrite decide_False by (intros E; now apply E).
  rewrite Hbuf. cbn [argBytes]. rewrite binary_Read_uint32_ok by assumption.
  reflexivity.
Qed.

Lemma ReadFloat32_decodes_written_float32_witness :
  let msg := writeArgs [AFloat32 1065353216] (NewMessage "/f") in
  ReadFloat32 msg
  = Returns ((1065353216%Z, None),
             {| address := address msg; typetag := typetag msg;
                argbuf := []; ttReadIndex := 2;
                senderAddress := senderAddress msg |}).
Proof.
  intros msg.
  apply (ReadFloat32_decodes_written_float32 msg 1065353216 []);
    [reflexivity | reflexivity | lia].
Defined.

(** X3: A numeric read that finds fewer than four bytes fails and still takes
    them: with the right tag under the cursor and a buffer of one to three
    bytes [ReadInt32] and [ReadFloat32] return [io.ErrUnexpectedEOF] (on an
    empty buffer [io.EOF]), the buffer is empty afterwards and the cursor has
    not moved. *)
Theorem numeric_read_short_buffer_drains :
  forall msg : Message,
    length (argbuf msg) < 4 ->
    let err := if decide (length (argbuf msg) = 0) then EOF else ErrUnexpectedEOF in
    (typetag msg !! ttReadIndex msg = Some typetagInt ->
     ReadInt32 msg = Returns ((0%Z, Some err), set_argbuf [] msg))
    /\ (typetag msg !! ttReadIndex msg = Some typetagFloat ->
        ReadFloat32 msg = Returns ((0%Z, Some err), set_argbuf [] msg)).
Proof.
  intros msg Hlen err. split; intros Htag.
  - unfold ReadInt32. rewrite (index_typetag_Some _ _ Htag).
    rewrite decide_False by (intros E; now apply E).
    now rewrite binary_Read_int32_short.
  - unfold ReadFloat32. rewrite (index_typetag_Some _ _ Htag).
    rewrite decide_False by (intros E; now apply E).
    now rewrite binary_Read_uint32_short.
Qed.

Lemma numeric_read_short_buffer_drains_witness :
  let msg := {| address := list_byte_of_string "/n";
                typetag := list_byte_of_string ",i";
                argbuf := list_byte_of_string "ab";
                ttReadIndex := 1; senderAddress := None |} in
  ReadInt32 msg = Returns ((0%Z, Some ErrUnexpectedEOF), set_argbuf [] msg).
Proof.
  intros msg.
  assert (H : length (argbuf msg) < 4) by (cbn; lia).
  exact (proj1 (numeric_read_short_buffer_drains msg H) eq_refl).
Defined.

(** ** Reading booleans *)

(** X4: A boolean lives in the type-tag string alone: with [T] or [F] under the
    cursor [ReadBool] returns the value, moves the cursor by one and leaves
    the argument buffer as it was. *)
Theorem ReadBool_reads_tag_only :
  forall (msg : Message) (val : bool),
    typetag msg !! ttReadIndex msg
    = Some (if val then typetagTrue else typetagFalse) ->
    ReadBool msg = Returns ((val, None), incr_ttReadIndex msg)
    /\ argbuf (incr_ttReadIndex msg) = argbuf msg.
Proof.
  intros msg val Htag. split; [|reflexivity].
  unfold ReadBool. rewrite (index_typetag_Some _ _ Htag).
  destruct val.
  - rewrite decide_False by (intros [E _]; now apply E).
    now rewrite bool_decide_eq_true_2.
  - rewrite decide_False by (intros [_ E]; now apply E).
    now rewrite bool_decide_eq_false_2.
Qed.

Lemma ReadBool_reads_tag_only_witness :
  let msg := writeArgs [ABool false; AInt32 1] (NewMessage "/b") in
  ReadBool msg = Returns ((false, None), incr_ttReadIndex msg)
  /\ argbuf (incr_ttReadIndex msg) = argbuf msg.
Proof.
  intros msg. apply (ReadBool_reads_tag_only msg false). reflexivity.
Defined.

(** ** Reading blobs *)

Lemma Buffer_Read_enough (b : Buffer) (n : nat) :
  0 < n <= length b ->
  Buffer_Read b n = ((take n b, n, None), drop n b).
Proof.
  intros Hn. unfold Buffer_Read. destruct b as [|b0 b]; [cbn in Hn; lia|].
  rewrite Nat.min_l by lia. rewrite Nat.sub_diag. cbn [replicate].
  now rewrite app_nil_r.
Qed.

(** X5: [ReadBlob] gives back a blob that [WriteBlob] has encoded but leaves the
    padding in the buffer: with the tag [b] under the cursor and the encoding
    of a non-empty [blob] at the front of the argument buffer it returns
    [blob] and moves the cursor by one, and the null bytes that padded the
    blob are still at the front of the buffer afterwards. *)
Theorem ReadBlob_leaves_padding :
  forall (msg : Message) (blob rest : list byte),
    typetag msg !! ttReadIndex msg = Some typetagBlob ->
    argbuf msg = argBytes (ABlob blob) ++ rest ->
    0 < length blob ->
    (Z.of_nat (length blob) < 2 ^ 31)%Z ->
    ReadBlob msg
    = Returns ((blob, None),
               {| address := address msg; typetag := typetag msg;
                  argbuf := replicate (padCount (length blob)) nul ++ rest;
                  ttReadIndex := S (ttReadIndex msg);
                  senderAddress := senderAddress msg |}).
Proof.
  intros msg blob rest Htag Hbuf Hpos Hlen. unfold ReadBlob.
  rewrite (index_typetag_Some _ _ Htag).
  rewrite decide_False by (intros E; now apply E).
  rewrite Hbuf. cbn [argBytes]. rewrite decide_False by lia.
  rewrite <- app_assoc, binary_Read_int32_ok by lia.
  rewrite decide_False by lia. rewrite Nat2Z.id.
  rewrite <- app_assoc.
  rewrite Buffer_Read_enough by (rewrite length_app; lia).
  now rewrite take_app_length, drop_app_length.
Qed.

(** After the blob [xyz] the padding byte is read as the first byte of the
    [int32] 9, which comes out as 0. *)
Lemma ReadBlob_leaves_padding_witness :
  let msg := writeArgs [ABlob (list_byte_of_string "xyz"); AInt32 9]
                       (NewMessage "/blob") in
  exists msg',
    ReadBlob msg = Returns ((list_byte_of_string "xyz", None), msg')
    /\ argbuf msg' = nul :: argBytes (AInt32 9)
    /\ returned_value (ReadInt32 msg') = Some (0%Z, None).
Proof.
  intros msg. eexists. split.
  - apply (ReadBlob_leaves_padding msg (list_byte_of_string "xyz")
             (argBytes (AInt32 9))); [reflexivity | reflexivity | cbn; lia | cbn; lia].
  - split; reflexivity.
Defined.

(** X6: A length prefix that promises more than the buffer holds goes
    unnoticed: [ReadBlob] returns a blob of the promised length, made of the
    bytes that were left and filled up with null bytes, and no error; only
    when nothing at all is left after the prefix does it fail, with
    [io.EOF]. *)
Theorem ReadBlob_truncated_payload :
  forall (msg : Message) (n : nat) (have : list byte),
    typetag msg !! ttReadIndex msg = Some typetagBlob ->
    argbuf msg = putUint32 (Z.of_nat n) ++ have ->
    length have < n ->
    (Z.of_nat n < 2 ^ 31)%Z ->
    ReadBlob msg
    = if decide (have = [])
      then Returns (([], Some EOF), set_argbuf [] msg)
      else Returns ((have ++ replicate (n - length have) nul, None),
                    incr_ttReadIndex (set_argbuf [] msg)).
Proof.
  intros msg n have Htag Hbuf Hshort Hn. unfold ReadBlob.
  rewrite (index_typetag_Some _ _ Htag).
  rewrite decide_False by (intros E; now apply E).
  rewrite Hbuf.
  replace (Z.of_nat n) with (uint32_of_int32 (Z.of_nat n))
    by (unfold uint32_of_int32; apply Z.mod_small; lia).
  rewrite binary_Read_int32_ok by lia.
  rewrite decide_False by lia. rewrite Nat2Z.id.
  unfold Buffer_Read. destruct have as [|h have].
  - rewrite decide_False by lia. reflexivity.
  - rewrite decide_False by discriminate.
    rewrite Nat.min_r by lia. rewrite firstn_all, drop_all. reflexivity.
Qed.

Lemma ReadBlob_truncated_payload_witness :
  let msg := {| address := list_byte_of_string "/b";
                typetag := list_byte_of_string ",b";
                argbuf := putUint32 8 ++ list_byte_of_string "ab";
                ttReadIndex := 1; senderAddress := None |} in
  ReadBlob msg
  = Returns ((list_byte_of_string "ab" ++ replicate 6 nul, None),
             incr_ttReadIndex (set_argbuf [] msg)).
Proof.
  intros msg.
  apply (ReadBlob_truncated_payload msg 8 (list_byte_of_string "ab"));
    [reflexivity | reflexivity | cbn; lia | lia].
Defined.

(** X7: A length prefix with the top bit set is a negative [int32]: [ReadBlob]
    then asks [make] for a slice of negative length, which is a run-time
    panic and not an error. *)
Theorem ReadBlob_negative_length_panics :
  forall (msg : Message) (u : Z) (rest : list byte),
    typetag msg !! ttReadIndex msg = Some typetagBlob ->
    argbuf msg = putUint32 u ++ rest ->
    (2 ^ 31 <= u < 2 ^ 32)%Z ->
    ReadBlob msg = Panics (MakeSliceLenOutOfRange (u - 2 ^ 32)).
Proof.
  intros msg u rest Htag Hbuf Hu. unfold ReadBlob.
  rewrite (index_typetag_Some _ _ Htag).
  rewrite decide_False by (intros E; now apply E).
  rewrite Hbuf. unfold binary_Read_int32.
  rewrite binary_Read_uint32_ok by lia. unfold int32_of_uint32.
  destruct (Z.ltb_spec u (2 ^ 31)); [lia|].
  now rewrite decide_True by lia.
Qed.

Lemma ReadBlob_negative_length_panics_witness :
  let msg := {| address := list_byte_of_string "/b";
                typetag := list_byte_of_string ",b";
                argbuf := putUint32 4294967295 ++ list_byte_of_string "abcd";
                ttReadIndex := 1; senderAddress := None |} in
  ReadBlob msg = Panics (MakeSliceLenOutOfRange (-1)).
Proof.
  intros msg.
  apply (ReadBlob_negative_length_panics msg 4294967295 (list_byte_of_string "abcd"));
    [reflexivity | reflexivity | lia].
Defined.

(** ** Reading strings *)

Lemma readStringLoop_no_nul (buf : Buffer) (i : nat) (val : list byte) :
  let k := (length buf - i + 1) / 2 in
  nul ∉ take k buf ->
  readStringLoop i buf val = (val ++ take k buf, drop k buf).
Proof.
  revert i val. induction buf as [|c buf IH]; intros i val k Hnul.
  - cbn. now rewrite app_nil_r.
  - cbn [readStringLoop]. unfold Buffer_Len. subst k.
    destruct (decide (i < length (c :: buf))) as [Hlt|Hge].
    + replace ((length (c :: buf) - i + 1) / 2)
        with (S ((length buf - S i + 1) / 2)) in * by (cbn [length] in *; lia).
      cbn [take drop firstn skipn] in *.
      destruct (decide (c = nul)) as [E|E].
      * exfalso. apply Hnul. subst c. left.
      * rewrite IH by (intros Hin; apply Hnul; now right).
        now rewrite <- app_assoc.
    + replace ((length (c :: buf) - i + 1) / 2) with 0
        by (cbn [length] in *; lia).
      cbn. now rewrite app_nil_r.
Qed.

Lemma readStringLoop_terminated (s rest : list byte) (i : nat) (val : list byte) :
  nul ∉ s ->
  2 * length s + i < length (s ++ nul :: rest) ->
  readStringLoop i (s ++ nul :: rest) val
  = (val ++ s, drop (padCount (i + length s)) rest).
Proof.
  revert i val. induction s as [|c s IH]; intros i val Hnul Hlen.
  - cbn [app readStringLoop]. unfold Buffer_Len.
    rewrite decide_True by (cbn in *; lia). rewrite decide_True by reflexivity.
    rewrite readPadLoop_spec by (pose proof (padCount_lt i); lia).
    now rewrite app_nil_r, Nat.add_0_r.
  - cbn [app readStringLoop]. unfold Buffer_Len.
    rewrite decide_True by (cbn [app length] in *; lia).
    rewrite decide_False by (intros E; apply Hnul; subst c; left).
    rewrite IH.
    + rewrite <- app_assoc. cbn [app length]. do 2 f_equal. f_equal. lia.
    + intros Hin. apply Hnul. now right.
    + cbn [app length] in *. lia.
Qed.

(** X8: [ReadString] looks for the end of a string in the first half of the
    buffer only, because the bound of its loop, the number of unread bytes,
    shrinks as its index grows.  With the tag [s] under the cursor and no
    null byte among the first [(len+1)/2] bytes of a buffer of [len] bytes,
    it returns exactly those bytes as the string and leaves the other half
    in the buffer. *)
Theorem ReadString_stops_at_half_of_buffer :
  forall msg : Message,
    typetag msg !! ttReadIndex msg = Some typetagString ->
    let k := (length (argbuf msg) + 1) / 2 in
    nul ∉ take k (argbuf msg) ->
    ReadString msg
    = Returns ((string_of_list_byte (take k (argbuf msg)), None),
               {| address := address msg; typetag := typetag msg;
                  argbuf := drop k (argbuf msg);
                  ttReadIndex := S (ttReadIndex msg);
                  senderAddress := senderAddress msg |}).
Proof.
  intros msg Htag k Hnul. unfold ReadString.
  rewrite (index_typetag_Some _ _ Htag).
  rewrite decide_False by (intros E; now apply E).
  pose proof (readStringLoop_no_nul (argbuf msg) 0 []) as H.
  rewrite Nat.sub_0_r in H. cbv zeta in H. rewrite (H Hnul).
  reflexivity.
Qed.

(** The string [abc], written and read back alone, comes out as [ab]. *)
Lemma ReadString_stops_at_half_of_buffer_witness :
  let msg := writeArgs [AString "abc"] (NewMessage "/s") in
  returned_value (ReadString msg) = Some ("ab"%string, None).
Proof.
  intros msg.
  assert (Htag : typetag msg !! ttReadIndex msg = Some typetagString)
    by reflexivity.
  assert (Hnul : nul ∉ take ((length (argbuf msg) + 1) / 2) (argbuf msg)).
  { vm_compute. intros H.
    repeat (apply elem_of_cons in H as [H|H]; [discriminate|]).
    now apply elem_of_nil in H. }
  rewrite (ReadString_stops_at_half_of_buffer msg Htag Hnul). reflexivity.
Defined.

(** X9: When the first null byte of the buffer lies in its first half,
    [ReadString] returns the bytes before it, and takes from the buffer
    those bytes, the null byte and as many more bytes as lead from the
    position of the null byte to the next multiple of four. *)
Theorem ReadString_terminated :
  forall (msg : Message) (s rest : list byte),
    typetag msg !! ttReadIndex msg = Some typetagString ->
    argbuf msg = s ++ nul :: rest ->
    nul ∉ s ->
    2 * length s < length (argbuf msg) ->
    ReadString msg
    = Returns ((string_of_list_byte s, None),
               {| address := address msg; typetag := typetag msg;
                  argbuf := drop (padCount (length s)) rest;
                  ttReadIndex := S (ttReadIndex msg);
                  senderAddress := senderAddress msg |}).
Proof.
  intros msg s rest Htag Hbuf Hnul Hlen. unfold ReadString.
  rewrite (index_typetag_Some _ _ Htag).
  rewrite decide_False by (intros E; now apply E).
  rewrite Hbuf in *. rewrite readStringLoop_terminated by (auto; lia).
  reflexivity.
Qed.

Lemma ReadString_terminated_witness :
  let msg := writeArgs [AString "a"] (NewMessage "/s") in
  ReadString msg
  = Returns (("a"%string, None),
             {| address := address msg; typetag := typetag msg;
                argbuf := []; ttReadIndex := 2;
                senderAddress := senderAddress msg |}).
Proof.
  intros msg.
  apply (ReadString_terminated msg (list_byte_of_string "a") [nul; nul]).
  - reflexivity.
  - reflexivity.
  - vm_compute. intros H.
    repeat (apply elem_of_cons in H as [H|H]; [discriminate|]).
    now apply elem_of_nil in H.
  - vm_compute. lia.
Defined.

(** X10: [ReadString] takes one byte more than [WriteString] wrote: when a string
    without null bytes, of a length that is not a multiple of four, is
    followed in the buffer by further arguments (and the buffer is more than
    twice as long as the string), [ReadString] returns the string, but the
    first byte of what follows is gone from the buffer. *)
Theorem ReadString_takes_first_byte_of_next_argument :
  forall (msg : Message) (val : string) (next : list byte),
    typetag msg !! ttReadIndex msg = Some typetagString ->
    argbuf msg = argBytes (AString val) ++ next ->
    nul ∉ list_byte_of_string val ->
    length (list_byte_of_string val) mod 4 <> 0 ->
    2 * length (list_byte_of_string val) < length (argbuf msg) ->
    ReadString msg
    = Returns ((val, None),
               {| address := address msg; typetag := typetag msg;
                  argbuf := drop 1 next;
                  ttReadIndex := S (ttReadIndex msg);
                  senderAddress := senderAddress msg |}).
Proof.
  intros msg val next Htag Hbuf Hnul Hmod Hlen. unfold ReadString.
  rewrite (index_typetag_Some _ _ Htag).
  rewrite decide_False by (intros E; now apply E).
  set (s := list_byte_of_string val) in *.
  pose proof (padCount_pos _ Hmod) as Hpos.
  destruct (padCount (length s)) as [|k] eqn:Epad; [lia|].
  assert (Hbuf' : argbuf msg = s ++ nul :: (replicate k nul ++ next)).
  { rewrite Hbuf. cbn [argBytes]. fold s. rewrite Epad.
    now rewrite <- app_assoc. }
  rewrite Hbuf' in *.
  rewrite readStringLoop_terminated by (auto; lia).
  cbn [Nat.add]. rewrite Epad.
  replace (drop (S k) (replicate k nul ++ next)) with (drop 1 next).
  - subst s. cbn [app]. now rewrite string_of_list_byte_of_string.
  - replace (S k) with (length (replicate k nul) + 1)
      by (rewrite length_replicate; lia).
    now rewrite <- drop_drop, drop_app_length.
Qed.

(** After the string [abc] the [int32] 1122 loses its first byte, and
    reading it fails. *)
Lemma ReadString_takes_first_byte_of_next_argument_witness :
  let msg := writeArgs [AString "abc"; AInt32 1122] (NewMessage "/s") in
  exists msg',
    ReadString msg = Returns (("abc"%string, None), msg')
    /\ argbuf msg' = drop 1 (argBytes (AInt32 1122))
    /\ returned_value (ReadInt32 msg') = Some (0%Z, Some ErrUnexpectedEOF).
Proof.
  intros msg. eexists. split.
  - apply (ReadString_takes_first_byte_of_next_argument msg "abc"
             (argBytes (AInt32 1122))).
    + reflexivity.
    + reflexivity.
    + vm_compute. intros H.
      repeat (apply elem_of_cons in H as [H|H]; [discriminate|]).
      now apply elem_of_nil in H.
    + vm_compute. lia.
    + vm_compute. lia.
  - split; reflexivity.
Defined.

(** ** What a typed read may change *)

Lemma binary_Read_uint32_suffix (b : Buffer) :
  exists k, snd (binary_Read_uint32 b) = drop k b.
Proof.
  unfold binary_Read_uint32, io_ReadFull. rewrite decide_False by lia.
  destruct b as [|b0 b]; [now exists 0|].
  destruct (decide (4 <= length (b0 :: b))).
  - exists 4. destruct (take 4 (b0 :: b)) as [|? [|? [|? [|? [|? ?]]]]]; reflexivity.
  - exists (length (b0 :: b)). rewrite drop_all.
    destruct (_ ++ _) as [|? [|? [|? [|? [|? ?]]]]]; reflexivity.
Qed.

Lemma binary_Read_int32_suffix (b : Buffer) :
  exists k, snd (binary_Read_int32 b) = drop k b.
Proof.
  unfold binary_Read_int32. destruct (binary_Read_uint32_suffix b) as [k Hk].
  exists k. destruct (binary_Read_uint32 b) as [[u e] b']. exact Hk.
Qed.

Lemma Buffer_Read_suffix (b : Buffer) (n : nat) :
  exists k, snd (Buffer_Read b n) = drop k b.
Proof.
  unfold Buffer_Read. destruct b as [|b0 b]; [now exists 0|].
  now exists (min n (length (b0 :: b))).
Qed.

Lemma readStringLoop_suffix (buf : Buffer) (i : nat) (val : list byte) :
  exists k, snd (readStringLoop i buf val) = drop k buf.
Proof.
  revert i val. induction buf as [|c buf IH]; intros i val; [now exists 0|].
  cbn [readStringLoop]. destruct (decide _); [|now exists 0].
  destruct (decide (c = nul)).
  - exists (S (padCount i)). cbn [snd drop skipn].
    apply readPadLoop_spec. pose proof (padCount_lt i). lia.
  - destruct (IH (S i) (val ++ [c])) as [k Hk]. now exists (S k).
Qed.

(** X11: None of the five typed reads touches the address, the type-tag string
    or the sender; each moves the cursor by one when it succeeds and leaves
    it where it was when it returns an error; and each only ever takes bytes
    off the front of the argument buffer. *)
Theorem typed_reads_keep_frame :
  forall msg : Message,
    (forall v e msg', ReadInt32 msg = Returns ((v, e), msg') -> read_frame msg msg' e)
    /\ (forall v e msg', ReadFloat32 msg = Returns ((v, e), msg') -> read_frame msg msg' e)
    /\ (forall v e msg', ReadBool msg = Returns ((v, e), msg') -> read_frame msg msg' e)
    /\ (forall v e msg', ReadString msg = Returns ((v, e), msg') -> read_frame msg msg' e)
    /\ (forall v e msg', ReadBlob msg = Returns ((v, e), msg') -> read_frame msg msg' e).
Proof.
  intros msg.
  assert (Hsame : forall tag, read_frame msg msg (Some (ErrUnexpectedType tag))).
  { intros tag. repeat split. now exists 0. }
  repeat apply conj; intros v e msg'.
  - unfold ReadInt32. destruct (index_typetag msg); [|discriminate].
    destruct (decide _); [intros [= <- <- <-]; apply Hsame|].
    destruct (binary_Read_int32_suffix (argbuf msg)) as [k Hk].
    destruct (binary_Read_int32 (argbuf msg)) as [[x [err|]] b];
      intros [= <- <- <-]; repeat split; now exists k.
  - unfold ReadFloat32. destruct (index_typetag msg); [|discriminate].
    destruct (decide _); [intros [= <- <- <-]; apply Hsame|].
    destruct (binary_Read_uint32_suffix (argbuf msg)) as [k Hk].
    destruct (binary_Read_uint32 (argbuf msg)) as [[x [err|]] b];
      intros [= <- <- <-]; repeat split; now exists k.
  - unfold ReadBool. destruct (index_typetag msg); [|discriminate].
    destruct (decide _); [intros [= <- <- <-]; apply Hsame|].
    intros [= <- <- <-]. repeat split. now exists 0.
  - unfold ReadString. destruct (index_typetag msg); [|discriminate].
    destruct (decide _); [intros [= <- <- <-]; apply Hsame|].
    destruct (readStringLoop_suffix (argbuf msg) 0 []) as [k Hk].
    destruct (readStringLoop 0 (argbuf msg) []) as [val b].
    intros [= <- <- <-]. repeat split. now exists k.
  - unfold ReadBlob. destruct (index_typetag msg); [|discriminate].
    destruct (decide _); [intros [= <- <- <-]; apply Hsame|].
    destruct (binary_Read_int32_suffix (argbuf msg)) as [k Hk].
    destruct (binary_Read_int32 (argbuf msg)) as [[x [err|]] b].
    + intros [= <- <- <-]. repeat split. now exists k.
    + destruct (decide _); [discriminate|].
      destruct (Buffer_Read_suffix b (Z.to_nat x)) as [k' Hk'].
      destruct (Buffer_Read b (Z.to_nat x)) as [[[bl cnt] [err|]] b'];
        intros [= <- <- <-]; repeat split; exists (k + k');
        cbn [snd] in *; subst; now rewrite drop_drop.
Qed.

(** ** Messages built with the writers *)

Lemma written_writeArg (a : Arg) (msg : Message) :
  written (writeArg a) msg
  = {| address := address msg;
       typetag := typetag msg ++ argTag a;
       argbuf := argbuf msg ++ argBytes a;
       ttReadIndex := ttReadIndex msg;
       senderAddress := senderAddress msg |}.
Proof.
  destruct a as [val|bits|val|val|blob]; unfold written; cbn [writeArg].
  - reflexivity.
  - reflexivity.
  - destruct val; cbn; now rewrite app_nil_r.
  - rewrite WriteString_spec. reflexivity.
  - rewrite WriteBlob_spec. cbn [argTag argBytes].
    destruct blob as [|b0 blob].
    + rewrite decide_True by reflexivity. cbn [length].
      rewrite !decide_True by reflexivity. rewrite !app_nil_r. now destruct msg.
    + rewrite decide_False by discriminate. cbn [length].
      rewrite !decide_False by lia. reflexivity.
Qed.

Lemma writeArgs_spec (args : list Arg) (msg : Message) :
  writeArgs args msg
  = {| address := address msg;
       typetag := typetag msg ++ concat (map argTag args);
       argbuf := argbuf msg ++ concat (map argBytes args);
       ttReadIndex := ttReadIndex msg;
       senderAddress := senderAddress msg |}.
Proof.
  revert msg. induction args as [|a args IH]; intros msg; cbn [writeArgs map concat].
  - rewrite !app_nil_r. now destruct msg.
  - rewrite IH, written_writeArg. cbn [address typetag argbuf ttReadIndex senderAddress].
    now rewrite <- !app_assoc.
Qed.

Lemma argTags_no_nul (args : list Arg) : nul ∉ concat (map argTag args).
Proof.
  induction args as [|a args IH]; cbn [map concat]; [apply not_elem_of_nil|].
  intros Hin. apply elem_of_app in Hin as [Hin|Hin]; [|now apply IH].
  destruct a as [val|bits|val|val|blob]; cbn [argTag] in Hin;
    try destruct val; try destruct (decide _);
    repeat (apply elem_of_cons in Hin as [Hin|Hin]; [discriminate|]);
    now apply elem_of_nil in Hin.
Qed.

Lemma argTags_length (args : list Arg) :
  length (concat (map argTag args)) <= length args.
Proof.
  induction args as [|a args IH]; cbn [map concat length]; [lia|].
  rewrite length_app.
  assert (length (argTag a) <= 1); [|lia].
  destruct a as [val|bits|val|val|blob]; cbn [argTag];
    try destruct (decide _); cbn; lia.
Qed.

(** X12: A message built by [NewMessage] and any sequence of typed writes has, in
    its type-tag string, the comma followed by one tag for each written
    argument in the order of the writes, except that an empty blob leaves no
    tag; the type-tag string holds no null byte and has at most one tag for
    each write; the argument buffer is the concatenation of what each write
    encoded; the cursor is at 1 and there is no sender. *)
Theorem built_message_layout :
  forall (addr : string) (args : list Arg),
    let msg := writeArgs args (NewMessage addr) in
    address msg = list_byte_of_string addr
    /\ typetag msg = typetagPrefix :: concat (map argTag args)
    /\ argbuf msg = concat (map argBytes args)
    /\ ttReadIndex msg = 1
    /\ senderAddress msg = None
    /\ (nul ∉ typetag msg)
    /\ length (typetag msg) <= S (length args).
Proof.
  intros addr args msg. subst msg. rewrite writeArgs_spec.
  cbn [NewMessage address typetag argbuf ttReadIndex senderAddress app].
  repeat split.
  - intros Hin. apply elem_of_cons in Hin as [Hin|Hin]; [discriminate|].
    now apply (argTags_no_nul args).
  - cbn [length]. pose proof (argTags_length args). lia.
Qed.

Lemma argBytes_aligned (a : Arg) : length (argBytes a) mod 4 = 0.
Proof.
  destruct a as [val|bits|val|val|blob]; cbn [argBytes].
  - reflexivity.
  - reflexivity.
  - reflexivity.
  - rewrite length_app, length_replicate. apply padCount_aligned.
  - destruct (decide _); [reflexivity|].
    rewrite !length_app, length_replicate, putUint32_length.
    pose proof (padCount_aligned (length blob)). lia.
Qed.

(** X13: Whatever is written into a new message with the typed writers, the
    argument buffer and the encoded message have a length that is a multiple
    of four. *)
Theorem built_message_is_aligned :
  forall (addr : string) (args : list Arg),
    length (argbuf (writeArgs args (NewMessage addr))) mod 4 = 0
    /\ length (fst (bytes (writeArgs args (NewMessage addr)))) mod 4 = 0.
Proof.
  intros addr args.
  assert (H : forall msg, length (argbuf msg) mod 4 = 0 ->
                          length (argbuf (writeArgs args msg)) mod 4 = 0).
  { induction args as [|a args IH]; intros msg Hm; [exact Hm|].
    cbn [writeArgs]. apply IH. rewrite written_writeArg. cbn [argbuf].
    rewrite length_app. pose proof (argBytes_aligned a). lia. }
  split.
  - now apply H.
  - apply bytes_length_aligned. now apply H.
Qed.

(** ** The decoder *)

Lemma parseMessage_no_comma (data : list byte) (sender : option string) :
  typetagPrefix ∉ data ->
  parseMessage data sender = Returns (None, Some ErrInvalidTypeTag).
Proof.
  intros H. unfold parseMessage. rewrite (scanLoop_absent _ _ _ H).
  cbn [Nat.add]. now rewrite drop_all.
Qed.

Lemma nul_not_in_prefixed (tail : list byte) :
  nul ∉ tail -> nul ∉ typetagPrefix :: tail.
Proof.
  intros H Hin. apply elem_of_cons in Hin as [Hin|Hin]; [discriminate|].
  now apply H.
Qed.

(** [parseArguments] on bytes that begin with a comma and hold a null byte:
    the type-tag string is what comes before the first null byte and the
    arguments begin at the next multiple of four, counted from the comma. *)
Lemma parseArguments_terminated (tail rest : list byte) (msg : Message) :
  nul ∉ tail ->
  let n := S (length tail) in
  parseArguments (typetagPrefix :: tail ++ nul :: rest) msg
  = match slice_from (typetagPrefix :: tail ++ nul :: rest) (n + padCount n) with
    | Panics p => Panics p
    | Returns args =>
        Returns (None, set_argbuf args (set_typetag (typetagPrefix :: tail) msg))
    end.
Proof.
  intros Hnul n. unfold parseArguments.
  rewrite decide_False by (intros E; now apply E).
  change (typetagPrefix :: tail ++ nul :: rest)
    with ((typetagPrefix :: tail) ++ nul :: rest).
  rewrite scanLoop_found by now apply nul_not_in_prefixed.
  cbn [Nat.add]. rewrite alignLoop_4, take_app_length. reflexivity.
Qed.

(** Without a null byte the type-tag string of the message is left unset. *)
Lemma parseArguments_unterminated (tail : list byte) (msg : Message) :
  nul ∉ tail ->
  let n := S (length tail) in
  parseArguments (typetagPrefix :: tail) msg
  = match slice_from (typetagPrefix :: tail) (n + padCount n) with
    | Panics p => Panics p
    | Returns args => Returns (None, set_argbuf args msg)
    end.
Proof.
  intros Hnul n. unfold parseArguments.
  rewrite decide_False by (intros E; now apply E).
  rewrite scanLoop_absent by now apply nul_not_in_prefixed.
  cbn [Nat.add]. now rewrite alignLoop_4.
Qed.

(** X14: [parseMessage] fails in one way only.  It returns [ErrInvalidTypeTag]
    and no message exactly when the data holds no comma; whenever it
    returns, it returns either that or a message and no error. *)
Theorem parseMessage_error_iff_no_comma :
  forall (data : list byte) (sender : option string),
    (typetagPrefix ∉ data
     <-> parseMessage data sender = Returns (None, Some ErrInvalidTypeTag))
    /\ (forall m e, parseMessage data sender = Returns (m, e) ->
                    (m = None /\ e = Some ErrInvalidTypeTag)
                    \/ (is_Some m /\ e = None)).
Proof.
  intros data sender.
  assert (Hcomma : typetagPrefix ∈ data -> forall m e,
             parseMessage data sender = Returns (m, e) -> is_Some m /\ e = None).
  { intros Hin m e. apply list_elem_of_split_l in Hin as (pre & post & -> & Hpre).
    rewrite parseMessage_with_comma by assumption.
    destruct (parseArguments _ _) as [[err msg']|]; [|discriminate].
    intros [= <- <-]. split; [now eexists | reflexivity]. }
  split; [split|].
  - apply parseMessage_no_comma.
  - intros H Hin. destruct (Hcomma Hin _ _ H) as [[m Hm] _]. discriminate.
  - intros m e H. destruct (decide (typetagPrefix ∈ data)) as [Hin|Hnin].
    + right. now apply Hcomma.
    + left. rewrite (parseMessage_no_comma data sender Hnin) in H.
      now injection H as <- <-.
Qed.

(** X15: A message that [parseMessage] returns has as its address the bytes of
    the data before the first comma, its cursor at 1 and the given sender;
    its argument buffer is a tail of the data; and its type-tag string is
    either unset or begins with the comma and holds no null byte. *)
Theorem parseMessage_message_shape :
  forall (data : list byte) (sender : option string) (m : Message),
    parseMessage data sender = Returns (Some m, None) ->
    (exists post, data = address m ++ typetagPrefix :: post)
    /\ (typetagPrefix ∉ address m)
    /\ ttReadIndex m = 1
    /\ senderAddress m = sender
    /\ (exists k, argbuf m = drop k data)
    /\ (typetag m = []
        \/ (head (typetag m) = Some typetagPrefix /\ nul ∉ typetag m)).
Proof.
  intros data sender m H.
  destruct (decide (typetagPrefix ∈ data)) as [Hin|Hnin];
    [|rewrite parseMessage_no_comma in H by assumption; discriminate].
  apply list_elem_of_split_l in Hin as (pre & post & -> & Hpre).
  rewrite parseMessage_with_comma in H by assumption.
  assert (Hdrop : forall j, drop j (typetagPrefix :: post)
                            = drop (length pre + j) (pre ++ typetagPrefix :: post)).
  { intros j. now rewrite <- drop_drop, drop_app_length. }
  destruct (decide (nul ∈ post)) as [Hnul|Hnul].
  - apply list_elem_of_split_l in Hnul as (tail & rest & -> & Htail).
    rewrite parseArguments_terminated in H by assumption. cbv zeta in H.
    unfold slice_from in H. destruct (decide _); [|discriminate].
    injection H as <-. cbn [address typetag argbuf ttReadIndex senderAddress
                              set_argbuf set_typetag].
    repeat split; try assumption.
    + now eexists.
    + exists (length pre + (S (length tail) + padCount (S (length tail)))).
      now rewrite <- Hdrop.
    + right. split; [reflexivity | now apply nul_not_in_prefixed].
  - rewrite parseArguments_unterminated in H by assumption. cbv zeta in H.
    unfold slice_from in H. destruct (decide _); [|discriminate].
    injection H as <-. cbn [address typetag argbuf ttReadIndex senderAddress
                              set_argbuf set_typetag].
    repeat split; try assumption.
    + now eexists.
    + exists (length pre + (S (length post) + padCount (S (length post)))).
      now rewrite <- Hdrop.
    + now left.
Qed.

Lemma parseMessage_message_shape_witness :
  let data := list_byte_of_string "/a,i" ++ [nul; nul] ++ putUint32 7 in
  exists m,
    parseMessage data (Some "peer"%string) = Returns (Some m, None)
    /\ address m = list_byte_of_string "/a"
    /\ ttReadIndex m = 1
    /\ senderAddress m = Some "peer"%string.
Proof.
  intros data. eexists. split; [reflexivity|].
  pose proof (parseMessage_message_shape data (Some "peer"%string) _ eq_refl)
    as (_ & _ & Hidx & Hsender & _).
  split; [reflexivity|]. split; [exact Hidx | exact Hsender].
Defined.

(** X16: A type-tag string that is not terminated by a null byte is not
    rejected.  When the bytes from the comma to the end of the data are not a
    multiple of four long, [parseMessage] panics on the slice of the
    arguments; when they are, it returns a message without a type-tag string,
    on which every typed read panics, and [Print] too once it has written the
    header. *)
Theorem parseMessage_unterminated_typetag :
  forall (pre tail : list byte) (sender : option string),
    typetagPrefix ∉ pre ->
    nul ∉ tail ->
    let n := S (length tail) in
    let m := {| address := pre; typetag := []; argbuf := [];
                ttReadIndex := 1; senderAddress := sender |} in
    (n mod 4 <> 0 ->
     parseMessage (pre ++ typetagPrefix :: tail) sender
     = Panics (SliceBoundsOutOfRange (n + padCount n) n))
    /\ (n mod 4 = 0 ->
        parseMessage (pre ++ typetagPrefix :: tail) sender = Returns (Some m, None))
    /\ ReadInt32 m = Panics (IndexOutOfRange 1 0)
    /\ ReadFloat32 m = Panics (IndexOutOfRange 1 0)
    /\ ReadBool m = Panics (IndexOutOfRange 1 0)
    /\ ReadString m = Panics (IndexOutOfRange 1 0)
    /\ ReadBlob m = Panics (IndexOutOfRange 1 0)
    /\ (forall (Writer : Type) (Fprintf : PrintItem -> Writer -> Writer * option error)
               (w : Writer),
           snd (Fprintf (PHeader pre []) w) = None ->
           Print Fprintf w m = Panics (SliceBoundsOutOfRange 1 0)).
Proof.
  intros pre tail sender Hpre Hnul n m.
  assert (Hparse : parseMessage (pre ++ typetagPrefix :: tail) sender
                   = match slice_from (typetagPrefix :: tail) (n + padCount n) with
                     | Panics p => Panics p
                     | Returns args =>
                         Returns (Some (set_argbuf args m), None)
                     end).
  { rewrite parseMessage_with_comma by assumption.
    rewrite parseArguments_unterminated by assumption. cbv zeta. fold n.
    destruct (slice_from _ _); reflexivity. }
  split; [|split].
  - intros Hmod. rewrite Hparse. unfold slice_from.
    pose proof (padCount_pos n Hmod).
    rewrite decide_False by (cbn [length]; lia). reflexivity.
  - intros Hmod. rewrite Hparse. unfold slice_from.
    rewrite (padCount_zero n Hmod), Nat.add_0_r.
    rewrite decide_True by (cbn [length]; lia).
    subst n. now rewrite drop_ge by (cbn [length]; lia).
  - repeat split.
    intros Writer Fprintf w Hw. unfold Print. subst m. cbn [address typetag].
    destruct (Fprintf (PHeader pre []) w) as [w' err]. cbn in Hw. now subst err.
Qed.

(** The datagram [/abc,ii] has no null byte after its type tags and is parsed
    into a message without a type-tag string; [/abc,i] makes the parser
    panic. *)
Lemma parseMessage_unterminated_typetag_witness :
  parseMessage (list_byte_of_string "/abc,iii") None
  = Returns (Some {| address := list_byte_of_string "/abc"; typetag := [];
                     argbuf := []; ttReadIndex := 1; senderAddress := None |},
             None)
  /\ parseMessage (list_byte_of_string "/abc,i") None
     = Panics (SliceBoundsOutOfRange 4 2).
Proof.
  assert (Hpre : typetagPrefix ∉ list_byte_of_string "/abc").
  { vm_compute. intros H.
    repeat (apply elem_of_cons in H as [H|H]; [discriminate|]).
    now apply elem_of_nil in H. }
  assert (Hnul : forall s, s = "iii"%string \/ s = "i"%string ->
                           nul ∉ list_byte_of_string s).
  { intros s [->| ->]; vm_compute; intros H;
      repeat (apply elem_of_cons in H as [H|H]; [discriminate|]);
      now apply elem_of_nil in H. }
  split.
  - apply (proj1 (proj2 (parseMessage_unterminated_typetag
                           (list_byte_of_string "/abc") (list_byte_of_string "iii")
                           None Hpre (Hnul _ (or_introl eq_refl))))).
    reflexivity.
  - apply (proj1 (parseMessage_unterminated_typetag
                    (list_byte_of_string "/abc") (list_byte_of_string "i")
                    None Hpre (Hnul _ (or_intror eq_refl)))).
    vm_compute. discriminate.
Defined.

(** X17: A packet in the standard wire form, in which the address and the
    type-tag string are each followed by their own null bytes up to a
    multiple of four, is decoded with its type tags and argument bytes in
    place, but the address of the decoded message still carries the null
    bytes that padded it.  (For a type-tag string whose length is a multiple
    of four the four null bytes after it stay in the argument buffer; that
    case is left out here.) *)
Theorem parseMessage_standard_form_keeps_address_padding :
  forall (addr tail args : list byte) (sender : option string),
    typetagPrefix ∉ addr ->
    nul ∉ tail ->
    S (length tail) mod 4 <> 0 ->
    parseMessage (aligned_string addr ++ aligned_string (typetagPrefix :: tail) ++ args)
                 sender
    = Returns (Some {| address := addr ++ replicate (4 - length addr mod 4) nul;
                       typetag := typetagPrefix :: tail;
                       argbuf := args;
                       ttReadIndex := 1; senderAddress := sender |}, None).
Proof.
  intros addr tail args sender Haddr Htail Hmod. unfold aligned_string.
  set (n := S (length tail)) in *.
  assert (Hpad : 4 - length (typetagPrefix :: tail) mod 4 = S (padCount n - 1)
                 /\ padCount n = S (padCount n - 1)).
  { cbn [length]. fold n. pose proof (padCount_pos n Hmod). unfold padCount in *. lia. }
  destruct Hpad as [Hpad1 Hpad2]. rewrite Hpad1.
  assert (Hpre : typetagPrefix ∉ addr ++ replicate (4 - length addr mod 4) nul).
  { intros Hin. apply elem_of_app in Hin as [Hin|Hin]; [now apply Haddr|].
    apply elem_of_replicate in Hin as [Hin _]. discriminate. }
  set (P := addr ++ replicate (4 - length addr mod 4) nul) in *.
  set (k := padCount n - 1) in *.
  assert (Hdata : P ++ ((typetagPrefix :: tail) ++ replicate (S k) nul) ++ args
                  = P ++ typetagPrefix :: (tail ++ nul :: (replicate k nul ++ args))).
  { cbn [replicate app]. now rewrite <- !app_assoc. }
  rewrite Hdata. rewrite parseMessage_with_comma by assumption.
  rewrite parseArguments_terminated by assumption. cbv zeta. fold n.
  unfold slice_from.
  rewrite decide_True
    by (cbn [length]; rewrite length_app; cbn [length];
        rewrite length_app, length_replicate; lia).
  cbn [set_argbuf set_typetag address typetag argbuf ttReadIndex senderAddress].
  do 3 f_equal. f_equal.
  change (typetagPrefix :: tail ++ nul :: replicate k nul ++ args)
    with ((typetagPrefix :: tail) ++ replicate (S k) nul ++ args).
  rewrite <- Hpad2.
  replace (n + padCount n)
    with (length ((typetagPrefix :: tail) ++ replicate (padCount n) nul))
    by (rewrite length_app, length_replicate; reflexivity).
  now rewrite app_assoc, drop_app_length.
Qed.

(** The standard encoding of [/address/test] with the [int32] 1122 decodes
    to a message whose address ends in three null bytes. *)
Lemma parseMessage_standard_form_keeps_address_padding_witness :
  parseMessage (wire_form_of_spec msg_address_test) None
  = Returns (Some {| address := list_byte_of_string "/address/test" ++ [nul; nul; nul];
                     typetag := list_byte_of_string ",i";
                     argbuf := putUint32 1122;
                     ttReadIndex := 1; senderAddress := None |}, None).
Proof.
  apply (parseMessage_standard_form_keeps_address_padding
           (list_byte_of_string "/address/test") (list_byte_of_string "i")
           (putUint32 1122) None).
  - vm_compute. intros H.
    repeat (apply elem_of_cons in H as [H|H]; [discriminate|]).
    now apply elem_of_nil in H.
  - vm_compute. intros H.
    repeat (apply elem_of_cons in H as [H|H]; [discriminate|]).
    now apply elem_of_nil in H.
  - vm_compute. discriminate.
Defined.

(** * Further properties of the dispatcher *)

(** X19: [Invoke] never calls more than one handler.  Its result is one of
    three: nothing happened and no error; a match failed with an error and
    nothing else happened; or the handler of one entry of the table, which
    matched, was called once on the world as it was, and its result is the
    result. *)
Theorem Invoke_runs_at_most_one_handler :
  forall (World : Type)
         (Match2 : Message -> string -> bool -> bool * option error)
         (range : PatternMatching World -> list (string * MessageHandler World))
         (h : PatternMatching World) (msg : Message) (exactMatch : bool) (w : World),
    Invoke Match2 range h msg exactMatch w = (w, None)
    \/ (exists addr handler e,
           (addr, handler) ∈ range h
           /\ snd (Match2 msg addr exactMatch) = Some e
           /\ Invoke Match2 range h msg exactMatch w = (w, Some e))
    \/ (exists addr handler,
           (addr, handler) ∈ range h
           /\ Match2 msg addr exactMatch = (true, None)
           /\ Invoke Match2 range h msg exactMatch w = Handle handler msg w).
Proof.
  intros World Match2 range h msg exactMatch w. unfold Invoke.
  induction (range h) as [|[addr handler] entries IH]; [now left|].
  cbn [InvokeLoop]. destruct (Match2 msg addr exactMatch) as [matched [e|]] eqn:Em.
  - right. left. exists addr, handler, e. rewrite Em. repeat split. left.
  - destruct matched.
    + right. right. exists addr, handler. rewrite Em. repeat split. left.
    + destruct IH as [IH|[(a & hd & e & Hin & He & IH)|(a & hd & Hin & Hm & IH)]].
      * now left.
      * right. left. exists a, hd, e. repeat split; [now right | assumption | assumption].
      * right. right. exists a, hd. repeat split; [now right | assumption | assumption].
Qed.

Lemma invoke_bundle_cons
    {World Timetag : Type}
    (Match2 : Message -> string -> bool -> bool * option error)
    (range : PatternMatching World -> list (string * MessageHandler World))
    (h : PatternMatching World) (exactMatch : bool)
    (t : Timetag) (q : Packet Timetag) (packets : list (Packet Timetag)) (w : World) :
  invoke Match2 range h (PBundle (mkBundle t (q :: packets))) exactMatch w
  = (fst (invoke Match2 range h q exactMatch w),
     match snd (invoke Match2 range h q exactMatch w) with
     | Some e => Some (ErrInvokeBundle [e])
     | None => None
     end).
Proof.
  transitivity
    (let '(w', err) := invoke Match2 range h q exactMatch w in
     (w', match err with
          | Some e => Some (ErrInvokeBundle [e])
          | None => None
          end)).
  - change (invoke Match2 range h (PBundle (mkBundle t (q :: packets))) exactMatch w)
      with (let '(w', err) := invoke Match2 range h q exactMatch w in
            let errs := match err with Some e => [] ++ [e] | None => [] end in
            if decide (0 < length errs) then (w', Some (ErrInvokeBundle errs))
            else (w', None)).
    destruct (invoke Match2 range h q exactMatch w) as [w' [e|]]; reflexivity.
  - destruct (invoke Match2 range h q exactMatch w) as [w' [e|]]; reflexivity.
Qed.

Lemma invoke_first_leaf
    {World Timetag : Type}
    (Match2 : Message -> string -> bool -> bool * option error)
    (range : PatternMatching World -> list (string * MessageHandler World))
    (h : PatternMatching World) (exactMatch : bool) :
  forall (p : Packet Timetag) (w : World),
    invoke Match2 range h p exactMatch w
    = match firstLeaf p with
      | LMessage m =>
          (fst (Invoke Match2 range h m exactMatch w),
           wrapErr (bundleDepth p) <$> snd (Invoke Match2 range h m exactMatch w))
      | LOther type_name =>
          (w, Some (wrapErr (bundleDepth p) (ErrUnsupportedType type_name)))
      | LEmpty => (w, None)
      end.
Proof.
  fix IH 1. intros [x|[t packets]|name] w.
  - cbn. now destruct (Invoke Match2 range h x exactMatch w) as [w' [e|]].
  - destruct packets as [|q packets]; [reflexivity|].
    rewrite invoke_bundle_cons, (IH q w). cbn [firstLeaf bundleDepth wrapErr].
    destruct (firstLeaf q) as [m|type_name|]; cbn [fst snd]; [|reflexivity..].
    now destruct (snd (Invoke Match2 range h m exactMatch w)).
  - reflexivity.
Qed.

(** X21: of a bundle, however its packets nest, at most the first message
    is delivered.  [Dispatch] waits when the bundle is not yet due and then
    follows first packets.  When that way ends at a message, the world is
    changed as [Invoke] changes it for that message, and the error is the
    one of that [Invoke] wrapped once for each bundle on the way (no error
    when [Invoke] returns none).  When it ends at a packet of an unsupported
    type, no handler is called and the error for the unsupported type,
    wrapped in the same way, is returned.  When it ends at a bundle without
    packets, nothing happens and no error is returned. *)
Theorem Dispatch_delivers_first_message_only :
  forall (World Timetag : Type)
         (Match2 : Message -> string -> bool -> bool * option error)
         (Timetag_Time : Timetag -> Z) (wait : Z -> World -> World)
         (range : PatternMatching World -> list (string * MessageHandler World))
         (h : PatternMatching World) (now : Z) (b : Bundle Timetag)
         (exactMatch : bool) (w : World),
    let t := Timetag_Time (Bundle_Timetag b) in
    let w0 := if decide (t < now)%Z then w else wait (t - now)%Z w in
    let depth := bundleDepth (PBundle b) in
    Dispatch Match2 Timetag_Time wait range h now b exactMatch w
    = match firstLeaf (PBundle b) with
      | LMessage m =>
          (fst (Invoke Match2 range h m exactMatch w0),
           wrapErr depth <$> snd (Invoke Match2 range h m exactMatch w0))
      | LOther type_name =>
          (w0, Some (wrapErr depth (ErrUnsupportedType type_name)))
      | LEmpty => (w0, None)
      end.
Proof.
  intros World Timetag Match2 Timetag_Time wait range h now b exactMatch w t w0 depth.
  subst depth.
  rewrite <- (invoke_first_leaf Match2 range h exactMatch (PBundle b) w0).
  unfold Dispatch. fold t. subst w0. destruct (decide (t < now)%Z); reflexivity.
Qed.

(** * Further properties of [Print] *)

Lemma lookup_of_drop (l tags : list byte) (i : nat) (tag : byte) :
  drop i l = tag :: tags -> l !! i = Some tag /\ drop (S i) l = tags.
Proof.
  intros H. split.
  - rewrite <- (Nat.add_0_r i), <- lookup_drop, H. reflexivity.
  - replace (S i) with (i + 1) by lia. rewrite <- drop_drop, H. reflexivity.
Qed.

(** X22: [Print] has no case for a blob and does not read it, so the cursor
    stays on the tag [b]: the next argument that [Print] does have a case for
    is then read against the wrong tag.  For a message whose first argument
    is a blob and whose second is a number, a string or a boolean, [Print]
    writes the header, returns the error for the unexpected type [b] and
    leaves the message as it was. *)
Theorem Print_fails_after_blob :
  forall (Writer : Type) (Fprintf : PrintItem -> Writer -> Writer * option error)
         (w w1 : Writer) (msg : Message) (tag : byte) (tags : list byte),
    typetag msg = typetagPrefix :: typetagBlob :: tag :: tags ->
    ttReadIndex msg = 1 ->
    tag ∈ [typetagInt; typetagFloat; typetagString; typetagTrue; typetagFalse] ->
    Fprintf (PHeader (address msg) (typetag msg)) w = (w1, None) ->
    Print Fprintf w msg
    = Returns ((Some (ErrUnexpectedType typetagBlob), w1), msg).
Proof.
  intros Writer Fprintf w w1 msg tag tags Htags Hidx Htag Hw.
  assert (Hcur : index_typetag msg = Returns typetagBlob).
  { apply index_typetag_Some. rewrite Htags, Hidx. reflexivity. }
  unfold Print. rewrite Hw, Htags. cbn [PrintLoop].
  rewrite !decide_False by (try intros [E|E]; discriminate).
  repeat (apply elem_of_cons in Htag as [->|Htag]);
    [..|now apply elem_of_nil in Htag].
  - rewrite decide_True by reflexivity.
    unfold ReadInt32. rewrite Hcur. now rewrite decide_True by discriminate.
  - rewrite decide_False by discriminate. rewrite decide_True by reflexivity.
    unfold ReadFloat32. rewrite Hcur. now rewrite decide_True by discriminate.
  - rewrite !decide_False by discriminate. rewrite decide_True by reflexivity.
    unfold ReadString. rewrite Hcur. now rewrite decide_True by discriminate.
  - rewrite !decide_False by discriminate. rewrite decide_True by now left.
    unfold ReadBool. rewrite Hcur.
    now rewrite decide_True by (split; discriminate).
  - rewrite !decide_False by discriminate. rewrite decide_True by now right.
    unfold ReadBool. rewrite Hcur.
    now rewrite decide_True by (split; discriminate).
Qed.

Lemma Print_fails_after_blob_witness :
  let msg := writeArgs [ABlob (list_byte_of_string "xyz"); AInt32 9]
                       (NewMessage "/blob") in
  Print collect [] msg
  = Returns ((Some (ErrUnexpectedType typetagBlob),
              [PHeader (address msg) (typetag msg)]), msg).
Proof.
  intros msg.
  apply (Print_fails_after_blob (list PrintItem) collect [] _ msg typetagInt []).
  - reflexivity.
  - reflexivity.
  - left.
  - reflexivity.
Defined.

Lemma PrintLoop_printable (args : list Arg) :
  forall (msg : Message) (w : list PrintItem) (post rest : list byte),
    Forall printable args ->
    drop (ttReadIndex msg) (typetag msg) = concat (map argTag args) ++ post ->
    argbuf msg = concat (map argBytes args) ++ rest ->
    PrintLoop collect (concat (map argTag args)) msg w
    = Returns ((None, w ++ concat (map argItems args)),
               {| address := address msg; typetag := typetag msg;
                  argbuf := rest;
                  ttReadIndex := ttReadIndex msg + length args;
                  senderAddress := senderAddress msg |}).
Proof.
  induction args as [|a args IH]; intros msg w post rest Hp Htags Hbuf.
  - cbn [map concat PrintLoop] in *. rewrite app_nil_r, Nat.add_0_r.
    cbn [app] in Hbuf. rewrite <- Hbuf. now destruct msg.
  - apply Forall_cons in Hp as [Ha Hp].
    cbn [map concat] in *. rewrite <- app_assoc in Hbuf.
    destruct a as [val|bits|val|val|blob]; try contradiction;
      cbn [argTag app] in *; apply lookup_of_drop in Htags as [Hcur Htags];
      apply index_typetag_Some in Hcur; cbn [PrintLoop].
    + rewrite decide_True by reflexivity.
      unfold ReadInt32. rewrite Hcur.
      rewrite decide_False by (intros E; now apply E).
      rewrite Hbuf. cbn [argBytes]. rewrite binary_Read_int32_ok by exact Ha.
      cbn [printValue collect].
      rewrite (IH _ _ post rest Hp) by (try exact Htags; reflexivity).
      cbn [incr_ttReadIndex set_argbuf address typetag argbuf ttReadIndex
             senderAddress argItems concat app length].
      rewrite <- app_assoc.
      replace (S (ttReadIndex msg) + length args)
        with (ttReadIndex msg + S (length args)) by lia.
      reflexivity.
    + rewrite decide_False by discriminate. rewrite decide_True by reflexivity.
      unfold ReadFloat32. rewrite Hcur.
      rewrite decide_False by (intros E; now apply E).
      rewrite Hbuf. cbn [argBytes]. rewrite binary_Read_uint32_ok by exact Ha.
      cbn [printValue collect].
      rewrite (IH _ _ post rest Hp) by (try exact Htags; reflexivity).
      cbn [incr_ttReadIndex set_argbuf address typetag argbuf ttReadIndex
             senderAddress argItems concat app length].
      rewrite <- app_assoc.
      replace (S (ttReadIndex msg) + length args)
        with (ttReadIndex msg + S (length args)) by lia.
      reflexivity.
    + rewrite !decide_False by (destruct val; discriminate).
      rewrite decide_True by (destruct val; [now left | now right]).
      unfold ReadBool. rewrite Hcur.
      rewrite decide_False by (destruct val; intros [E1 E2]; [now apply E1 | now apply E2]).
      cbn [printValue collect].
      rewrite (IH _ _ post rest Hp) by (try exact Htags; exact Hbuf).
      cbn [incr_ttReadIndex set_argbuf address typetag argbuf ttReadIndex
             senderAddress argItems concat app length].
      rewrite <- app_assoc.
      replace (bool_decide ((if val then typetagTrue else typetagFalse) = typetagTrue))
        with val by (now destruct val).
      replace (S (ttReadIndex msg) + length args)
        with (ttReadIndex msg + S (length args)) by lia.
      reflexivity.
Qed.

Lemma Print_collect (w : list PrintItem) (msg : Message) :
  Print collect w msg
  = match typetag msg with
    | [] => Panics (SliceBoundsOutOfRange 1 0)
    | _ :: tags =>
        PrintLoop collect tags msg (w ++ [PHeader (address msg) (typetag msg)])
    end.
Proof. reflexivity. Qed.

(** X23: [Print] uses the message up.  For a new message into which numbers
    within the range of their type and booleans were written, [Print] to a
    writer that does not fail writes the header and one item for each
    argument, in order, returns no error and leaves the cursor behind the
    last tag and the buffer empty; and if there was an argument at all,
    printing the message a second time panics with an index out of range. *)
Theorem Print_consumes_the_message :
  forall (addr : string) (args : list Arg) (w : list PrintItem),
    Forall printable args ->
    let msg := writeArgs args (NewMessage addr) in
    let msg' := {| address := address msg; typetag := typetag msg; argbuf := [];
                   ttReadIndex := S (length args); senderAddress := None |} in
    let w' := w ++ PHeader (address msg) (typetag msg) :: concat (map argItems args) in
    Print collect w msg = Returns ((None, w'), msg')
    /\ (args <> [] ->
        Print collect w' msg'
        = Panics (IndexOutOfRange (S (length args)) (S (length args)))).
Proof.
  intros addr args w Hp msg msg' w'.
  assert (Hmsg : msg = {| address := list_byte_of_string addr;
                          typetag := typetagPrefix :: concat (map argTag args);
                          argbuf := concat (map argBytes args);
                          ttReadIndex := 1; senderAddress := None |}).
  { subst msg. rewrite writeArgs_spec. reflexivity. }
  clearbody msg. subst msg. cbn [address typetag] in *.
  assert (Hlen : length (concat (map argTag args)) = length args).
  { clear -Hp. induction Hp as [|a args Ha _ IH]; [reflexivity|].
    cbn [map concat]. rewrite length_app, IH.
    destruct a; try contradiction; reflexivity. }
  split.
  - rewrite Print_collect. cbn [typetag].
    rewrite (PrintLoop_printable args _ _ [] [] Hp);
      cbn [typetag argbuf ttReadIndex drop skipn address senderAddress];
      rewrite ?app_nil_r; try reflexivity.
    subst w' msg'. now rewrite <- app_assoc.
  - intros Hne. destruct args as [|a args]; [contradiction|].
    apply Forall_cons in Hp as [Ha _].
    assert (Hend : index_typetag msg'
                   = Panics (IndexOutOfRange (S (length (a :: args)))
                                             (S (length (a :: args))))).
    { rewrite index_typetag_past_end; subst msg';
        cbn [typetag ttReadIndex length] in *; rewrite Hlen; [reflexivity | lia]. }
    rewrite Print_collect. subst msg'. cbn [typetag map concat] in *.
    destruct a as [val|bits|val|val|blob]; try contradiction;
      cbn [argTag app PrintLoop] in *.
    + rewrite decide_True by reflexivity.
      unfold ReadInt32. now rewrite Hend.
    + rewrite decide_False by discriminate. rewrite decide_True by reflexivity.
      unfold ReadFloat32. now rewrite Hend.
    + rewrite !decide_False by (destruct val; discriminate).
      rewrite decide_True by (destruct val; [now left | now right]).
      unfold ReadBool. now rewrite Hend.
Qed.

Lemma Print_consumes_the_message_witness :
  let msg := writeArgs [AInt32 1122; ABool true] (NewMessage "/p") in
  exists msg',
    Print collect [] msg
    = Returns ((None, [PHeader (address msg) (typetag msg); PInt 1122; PBool true]),
               msg')
    /\ Print collect [] msg' = Panics (IndexOutOfRange 3 3).
Proof.
  intros msg.
  assert (Hp : Forall printable [AInt32 1122; ABool true]).
  { repeat constructor; cbn; lia. }
  destruct (Print_consumes_the_message "/p" [AInt32 1122; ABool true] [] Hp)
    as [H1 _].
  eexists. split; [exact H1 | reflexivity].
Defined.

(** * Encoding and decoding a built message *)

(** X18: A message built with the writers comes back from [parseMessage] exactly
    as it was, when its address holds no comma and has a length that is a
    multiple of four, and the length of its type-tag string is not a multiple
    of four. *)
Theorem built_message_round_trip :
  forall (addr : string) (args : list Arg),
    typetagPrefix ∉ list_byte_of_string addr ->
    length (list_byte_of_string addr) mod 4 = 0 ->
    S (length (concat (map argTag args))) mod 4 <> 0 ->
    parseMessage (fst (bytes (writeArgs args (NewMessage addr)))) None
    = Returns (Some (writeArgs args (NewMessage addr)), None).
Proof.
  intros addr args Hcomma Haddr Htags.
  rewrite writeArgs_spec.
  cbn [NewMessage address typetag argbuf ttReadIndex senderAddress app].
  apply (parseMessage_bytes_aligned_address
           {| address := list_byte_of_string addr;
              typetag := typetagPrefix :: concat (map argTag args);
              argbuf := concat (map argBytes args);
              ttReadIndex := 1; senderAddress := None |} None).
  - exact Hcomma.
  - reflexivity.
  - cbn [typetag]. intros Hin.
    apply elem_of_cons in Hin as [Hin|Hin]; [discriminate|].
    now apply (argTags_no_nul args).
  - exact Haddr.
  - exact Htags.
Qed.

(** The message at [/abc] with the [int32] 1122 and the string [hi] survives
    the round trip. *)
Lemma built_message_round_trip_witness :
  let msg := writeArgs [AInt32 1122; AString "hi"] (NewMessage "/abc") in
  parseMessage (fst (bytes msg)) None = Returns (Some msg, None).
Proof.
  intros msg.
  apply (built_message_round_trip "/abc" [AInt32 1122; AString "hi"]).
  - vm_compute. intros H.
    repeat (apply elem_of_cons in H as [H|H]; [discriminate|]).
    now apply elem_of_nil in H.
  - reflexivity.
  - vm_compute. discriminate.
Defined.

(** * A match that fails *)

(** X20: When the match against an entry fails with an error, and the entries
    visited before it did not match, [Invoke] stops there: it returns that
    error, the world is as it was, and neither the handler of that entry nor
    any entry after it is reached. *)
Theorem Invoke_stops_at_match_error :
  forall (World : Type)
         (Match2 : Message -> string -> bool -> bool * option error)
         (range : PatternMatching World -> list (string * MessageHandler World))
         (h : PatternMatching World) (msg : Message) (exactMatch : bool)
         (w : World) pre addr handler post (err : error),
    range h = pre ++ (addr, handler) :: post ->
    Forall (fun entry => Match2 msg entry.1 exactMatch = (false, None)) pre ->
    snd (Match2 msg addr exactMatch) = Some err ->
    Invoke Match2 range h msg exactMatch w = (w, Some err).
Proof.
  intros World Match2 range h msg exactMatch w pre addr handler post err Hr Hpre Herr.
  unfold Invoke. rewrite Hr. now apply InvokeLoop_match_error.
Qed.

(** A message whose address is the pattern [/x[], which does not compile,
    reaches no handler. *)
Lemma Invoke_stops_at_match_error_witness :
  Invoke oscMatch2 map_to_list table_a_b (NewMessage "/x[") false []
  = ([], Some (ErrRegexp "/x[")).
Proof.
  apply (Invoke_stops_at_match_error Log oscMatch2 map_to_list table_a_b
           (NewMessage "/x[") false [] [] "/a"%string (logging "A")
           [("/b"%string, logging "B")]).
  - reflexivity.
  - constructor.
  - reflexivity.
Defined.
